(** * A model of the MinIO file provider and of the FeaturedProducts component

    The backend module [modules/minio-file/service.ts] is a thin adapter
    between Medusa's file-provider interface and the MinIO client.  Its
    methods are [async] functions that talk to two outside parties: the
    object-store client and the logger.  They are embedded here as
    computations over an abstract world [W] (everything the client, the
    clock and the random generator can observe) that produce an outcome
    and the ordered list of calls they issued.

    The storefront component [featured-products/index.tsx] is embedded in
    the same style in the second half of the file. *)

From Stdlib Require Import ZArith String Ascii List Lia.
From stdpp Require Import base option list strings gmap pretty.

Local Open Scope string_scope.
Local Open Scope list_scope.
Local Open Scope Z_scope.

(** ** JavaScript values *)

(** A string-valued property can be [undefined]/[null] ([None]) or a
    string.  [!x] holds for [undefined], [null] and the empty string. *)
Definition truthy (x : option string) : bool :=
  match x with
  | Some (String _ _) => true
  | _ => false
  end.

(** [a || d] for a string-valued [a] and a string [d]. *)
Definition or_else (a : option string) (d : string) : string :=
  match a with
  | Some (String c r) => String c r
  | _ => d
  end.

(** The numbers the adapter handles are results of [parseInt] and integer
    literals: an integer, [NaN], or (for a digit string too long for a
    double) an infinity. *)
Inductive JsNumber :=
| JsInt (z : Z)
| NaN
| Infinity (negative : bool).

(** [a === b] for an integer literal [b]: [NaN] and the infinities are
    equal to no integer. *)
Definition number_eqb (a b : JsNumber) : bool :=
  match a, b with
  | JsInt x, JsInt y => Z.eqb x y
  | _, _ => false
  end.

(** [`${n}`], that is [Number::toString].  An integer of magnitude up to
    2^53 prints as its decimal digits, with a minus sign when negative.
    Beyond that the language runtime chooses the digits (the shortest
    that read back as the same double, padded with zeros below 1e21 and
    in exponent form from 1e21 up): that is [big_toString]. *)
Definition number_toString (big_toString : Z → string) (n : JsNumber) : string :=
  match n with
  | JsInt z => if Z.abs z <=? 2 ^ 53 then pretty z else big_toString z
  | NaN => "NaN"
  | Infinity negative => if negative then "-Infinity" else "Infinity"
  end.

(** A [Buffer] is a sequence of bytes. *)
Definition Buffer := list Byte.byte.

(** [Buffer.from(s, 'binary')]: one byte per character.  Characters are the
    8-bit characters of [string]; code units above 255 are outside the model. *)
Definition Buffer_from_binary (s : string) : Buffer := list_byte_of_string s.

(** [Buffer.concat(chunks)] *)
Definition Buffer_concat (chunks : list Buffer) : Buffer := concat chunks.

(** The JSON documents the adapter builds. *)
#[local] Unset Elimination Schemes.
Inductive Json :=
| JStr (s : string)
| JArr (items : list Json)
| JObj (fields : list (string * Json)).
#[local] Set Elimination Schemes.

(** ** Errors *)

(** [MedusaError.Types], as far as the adapter uses them. *)
Inductive MedusaErrorType := INVALID_DATA | UNEXPECTED_STATE.

(** What can be thrown: a [MedusaError], or any other error object (an
    error of the MinIO client, a [TypeError], ...), of which only [name]
    and [message] are observed. *)
Inductive JsError :=
| MedusaError (type : MedusaErrorType) (msg : string)
| OtherError (name : string) (msg : string).

(** [error.message] *)
Definition message (e : JsError) : string :=
  match e with
  | MedusaError _ m => m
  | OtherError _ m => m
  end.

Definition is_MedusaError (e : JsError) : bool :=
  match e with
  | MedusaError _ _ => true
  | OtherError _ _ => false
  end.

(** ** Asynchronous computations

    An awaited promise returns, throws, or never settles. *)
Inductive Outcome (A : Type) :=
| Returned (a : A)
| Threw (e : JsError)
| Pending.
Arguments Returned {A} a.
Arguments Threw {A} e.
Arguments Pending {A}.

Section Computations.
Context {W E : Type}.

(** The result of running a computation: its outcome, the world it
    leaves, and the events it emitted, oldest first. *)
Record Run (A : Type) := mkRun {
  outcome : Outcome A;
  final : W;
  trace : list E
}.
Arguments mkRun {A}.
Arguments outcome {A}.
Arguments final {A}.
Arguments trace {A}.

Definition M (A : Type) : Type := W → Run A.

Definition ret {A} (a : A) : M A := λ w, mkRun (Returned a) w [].

Definition throw {A} (e : JsError) : M A := λ w, mkRun (Threw e) w [].

(** Runs [k] from where [r] stopped, after the events of [r]. *)
Definition continue {A B} (k : A → M B) (a : A) (w : W) (t : list E) : Run B :=
  match k a w with
  | mkRun o w' t' => mkRun o w' (t ++ t')
  end.

(** [const a = await m; k a] *)
Definition bind {A B} (m : M A) (k : A → M B) : M B := λ w,
  match m w with
  | mkRun (Returned a) w' t => continue k a w' t
  | mkRun (Threw e) w' t => mkRun (Threw e) w' t
  | mkRun Pending w' t => mkRun Pending w' t
  end.

(** [try { m } catch (error) { h error }] *)
Definition try_catch {A} (m : M A) (h : JsError → M A) : M A := λ w,
  match m w with
  | mkRun (Threw e) w' t => continue h e w' t
  | r => r
  end.

(** An effect that always returns: a logger call. *)
Definition emit (e : E) : M unit := λ w, mkRun (Returned tt) w [e].

(** [await f(...)] for an outside function [f]; the event records the
    call together with how it settled. *)
Definition perform {A} (e : Outcome A → E) (f : W → Outcome A * W) : M A := λ w,
  match f w with
  | (o, w') => mkRun o w' [e o]
  end.
End Computations.

Arguments Run : clear implicits.
Arguments M : clear implicits.
Arguments mkRun {W E A}.
Arguments outcome {W E A}.
Arguments final {W E A}.
Arguments trace {W E A}.

Global Instance M_ret {W E} : MRet (M W E) := λ A, ret.
Global Instance M_bind {W E} : MBind (M W E) := λ A B k m, bind m k.
Global Instance M_fmap {W E} : FMap (M W E) := λ A B f m, bind m (λ a, ret (f a)).

(** * The MinIO file provider *)

Module Minio.

(** ** Data transfer objects

    The TypeScript types promise strings, but the methods guard against
    missing objects and missing fields at run time, so both are optional
    here. *)

(** [ProviderUploadFileDTO] *)
Record ProviderUploadFileDTO := {
  filename : option string;
  mimeType : option string;
  content : option string
}.

(** [ProviderDeleteFileDTO] and [ProviderGetFileDTO] *)
Record ProviderGetFileDTO := { fileKey : option string }.
Abbreviation ProviderDeleteFileDTO := ProviderGetFileDTO (only parsing).

(** [ProviderGetPresignedUploadUrlDTO] *)
Record ProviderGetPresignedUploadUrlDTO := { upload_filename : option string }.

(** [ProviderFileResultDTO] *)
Record ProviderFileResultDTO := { url : string; key : string }.

(** [fileData?.fileKey] *)
Definition fileKey_of (fileData : option ProviderGetFileDTO) : option string :=
  fileData ≫= fileKey.

(** [fileData?.filename] *)
Definition filename_of (fileData : option ProviderGetPresignedUploadUrlDTO)
  : option string :=
  fileData ≫= upload_filename.

(** The argument of [delete]: one DTO or an array of them. *)
Inductive DeleteInput :=
| OneFile (file : option ProviderDeleteFileDTO)
| FileArray (files : list (option ProviderDeleteFileDTO)).

(** [MinioFileProviderOptions] and [MinioServiceConfig] have the same shape. *)
Record MinioFileProviderOptions := {
  endPoint : string;
  accessKey : string;
  secretKey : string;
  opt_bucket : option string;
  opt_publicEndpoint : option string
}.
Abbreviation MinioServiceConfig := MinioFileProviderOptions (only parsing).

Definition DEFAULT_BUCKET : string := "medusa-media".

Record ParsedEndpoint := {
  protocol : string;
  hostname : string;
  port : JsNumber;
  host : string
}.

(** ** The outside world: streams, the client, the logger *)

(** What a readable stream emits, in order. *)
Inductive StreamEvent :=
| SData (chunk : Buffer)
| SEnd
| SError (e : JsError).
Definition Readable := list StreamEvent.

(** The options object handed to [new Client]. *)
Record ClientOptions := {
  c_endPoint : string;
  c_port : JsNumber;
  c_useSSL : bool;
  c_accessKey : string;
  c_secretKey : string
}.

(** The calls the adapter makes on the MinIO client, with their arguments. *)
Inductive ClientCall :=
| BucketExists (bucket : string)
| MakeBucket (bucket : string)
| SetBucketPolicy (bucket : string) (policy : string)
| PutObject (bucket key : string) (data : Buffer) (size : nat)
    (metaData : list (string * option string))
| RemoveObject (bucket key : string)
| PresignedGetObject (bucket key : string) (expiry : Z)
| PresignedPutObject (bucket key : string) (expiry : Z)
| GetObject (bucket key : string).

(** How a client call settled, without the value it returned. *)
Inductive Reply :=
| Ok
| Failed (e : JsError)
| Hung.

Definition reply_of {A} (o : Outcome A) : Reply :=
  match o with
  | Returned _ => Ok
  | Threw e => Failed e
  | Pending => Hung
  end.

Inductive LogLevel := Info | Warn | Error.

(** What the adapter does to the outside, in the order it does it. *)
Inductive Event :=
| Call (c : ClientCall) (reply : Reply)
| Log (level : LogLevel) (text : string).

(** The bucket a client call addresses. *)
Definition call_bucket (c : ClientCall) : string :=
  match c with
  | BucketExists b | MakeBucket b | SetBucketPolicy b _
  | PutObject b _ _ _ _ | RemoveObject b _
  | PresignedGetObject b _ _ | PresignedPutObject b _ _ | GetObject b _ => b
  end.

(** Calls that administer the bucket itself rather than its objects. *)
Definition is_bucket_admin (c : ClientCall) : bool :=
  match c with
  | BucketExists _ | MakeBucket _ | SetBucketPolicy _ _ => true
  | _ => false
  end.

(** The client calls of a trace, in order. *)
Definition client_calls (t : list Event) : list ClientCall :=
  omap (λ e, match e with Call c _ => Some c | Log _ _ => None end) t.

Section Service.
Context {W : Type}.

Abbreviation Async A := (W → Outcome A * W) (only parsing).

(** The methods of minio's [Client] that the adapter uses.  Their
    behaviour is arbitrary: each may return, throw or hang, and may
    change the world. *)
Record Client := {
  bucketExists : string → Async bool;
  makeBucket : string → Async unit;
  setBucketPolicy : string → string → Async unit;
  putObject : string → string → Buffer → nat →
              list (string * option string) → Async unit;
  removeObject : string → string → Async unit;
  presignedGetObject : string → string → Z → Async string;
  presignedPutObject : string → string → Z → Async string;
  getObject : string → string → Async Readable
}.

(** [new URL(s)], as far as [parseEndpoint] reads it. *)
Record URL := {
  url_protocol : string;
  url_hostname : string;
  url_port : string;
  url_host : string
}.

(** [path.parse(p)], as far as [upload] reads it. *)
Record ParsedPath := { name : string; ext : string }.

(** Library functions the adapter calls and this repository does not
    define. *)
Record Runtime := {
  (** [new URL(s)] returns or throws *)
  URL_new : string → JsError + URL;
  (** [parseInt(s, 10)] *)
  parseInt10 : string → JsNumber;
  (** [Number::toString] on an integer of magnitude beyond 2^53 *)
  big_toString : Z → string;
  (** [JSON.stringify] *)
  JSON_stringify : Json → string;
  (** [path.parse] *)
  path_parse : string → ParsedPath;
  (** [ulid()] reads the clock and the random generator *)
  ulid : W → string * W;
  (** [new Client(options)] returns or throws *)
  Client_new : ClientOptions → JsError + Client
}.

(** The fields of [MinioFileProviderService]; the logger is the [Log]
    events of the trace. *)
Record MinioFileProviderService := {
  config_ : MinioServiceConfig;
  client : Client;
  bucket : string;
  publicEndpoint : string
}.

Variable rt : Runtime.

Abbreviation Task A := (M W Event A) (only parsing).

Definition log (l : LogLevel) (text : string) : Task unit := emit (Log l text).

Definition client_call {A} (c : ClientCall) (f : Async A) : Task A :=
  perform (λ o, Call c (reply_of o)) f.

(** [endpoint.split(':')]: the pieces between colons; never empty. *)
Fixpoint split_colon (s : string) : list string :=
  match s with
  | EmptyString => [EmptyString]
  | String c r =>
      if Ascii.eqb c ":"%char then EmptyString :: split_colon r
      else match split_colon r with
           | p :: ps => String c p :: ps
           | [] => [String c EmptyString]
           end
  end.

(** [parseEndpoint] *)
Definition parseEndpoint (endpoint : string) : Task ParsedEndpoint :=
  let urlString :=
    if negb (String.prefix "http://" endpoint) && negb (String.prefix "https://" endpoint)
    then "https://" +:+ endpoint
    else endpoint in
  match URL_new rt urlString with
  | inr url =>
      let defaultPort := if String.eqb (url_protocol url) "https:" then JsInt 443 else JsInt 80 in
      let port := if truthy (Some (url_port url)) then parseInt10 rt (url_port url) else defaultPort in
      mret {| protocol := url_protocol url;
              hostname := url_hostname url;
              port := port;
              host := url_host url |}
  | inl error =>
      log Warn ("Failed to parse endpoint URL, using fallback: " +:+ message error);;
      let parts := split_colon endpoint in
      let hostname := default EmptyString (head parts) in
      let port := match parts with
                  | _ :: p1 :: _ => parseInt10 rt p1
                  | _ => JsInt 443
                  end in
      mret {| protocol := "https:";
              hostname := hostname;
              port := port;
              host := if number_eqb port (JsInt 443) then hostname
                      else hostname +:+ ":"
                           +:+ number_toString (big_toString rt) port |}
  end.

(** The public-read policy document of [initializeBucket]. *)
Definition publicReadPolicy (bucket : string) : Json :=
  JObj [("Version", JStr "2012-10-17");
        ("Statement", JArr [
           JObj [("Sid", JStr "PublicRead");
                 ("Effect", JStr "Allow");
                 ("Principal", JStr "*");
                 ("Action", JArr [JStr "s3:GetObject"]);
                 ("Resource", JArr [JStr ("arn:aws:s3:::" +:+ bucket +:+ "/*")])]])].

(** [initializeBucket] *)
Definition initializeBucket (this : MinioFileProviderService) : Task unit :=
  let policy := JSON_stringify rt (publicReadPolicy (bucket this)) in
  try_catch
    (bucketExists ← client_call (BucketExists (bucket this))
                      (bucketExists (client this) (bucket this));
     if negb bucketExists then
       client_call (MakeBucket (bucket this)) (makeBucket (client this) (bucket this));;
       log Info ("Created bucket: " +:+ bucket this);;
       client_call (SetBucketPolicy (bucket this) policy)
         (setBucketPolicy (client this) (bucket this) policy);;
       log Info ("Set public read policy for bucket: " +:+ bucket this)
     else
       log Info ("Using existing bucket: " +:+ bucket this);;
       try_catch
         (client_call (SetBucketPolicy (bucket this) policy)
            (setBucketPolicy (client this) (bucket this) policy);;
          log Info ("Updated public read policy for existing bucket: " +:+ bucket this))
         (λ policyError,
            log Warn ("Failed to update policy for existing bucket: "
                      +:+ message policyError)))
    (λ error,
       log Error ("Error initializing bucket: " +:+ message error);;
       throw error).

(** The constructor up to and including [new Client(...)].  It returns
    the service object (or throws what [new Client] throws). *)
Definition constructor (options : MinioFileProviderOptions)
  : Task MinioFileProviderService :=
  let config_ := {| endPoint := endPoint options;
                    accessKey := accessKey options;
                    secretKey := secretKey options;
                    opt_bucket := opt_bucket options;
                    opt_publicEndpoint := opt_publicEndpoint options |} in
  let bucket := or_else (opt_bucket config_) DEFAULT_BUCKET in
  endpointUrl ← parseEndpoint (endPoint config_);
  let publicEndpoint :=
    or_else (opt_publicEndpoint config_)
            (protocol endpointUrl +:+ "//" +:+ host endpointUrl) in
  log Info ("MinIO service initialized with bucket: " +:+ bucket);;
  log Info ("MinIO internal endpoint: " +:+ endPoint config_);;
  log Info ("MinIO public endpoint: " +:+ publicEndpoint);;
  match Client_new rt {| c_endPoint := hostname endpointUrl;
                         c_port := port endpointUrl;
                         c_useSSL := String.eqb (protocol endpointUrl) "https:";
                         c_accessKey := accessKey config_;
                         c_secretKey := secretKey config_ |} with
  | inr client =>
      mret {| config_ := config_; client := client;
              bucket := bucket; publicEndpoint := publicEndpoint |}
  | inl error => throw error
  end.

(** The last statement of the constructor,
    [this.initializeBucket().catch(...)]: a promise the constructor
    starts and does not await. *)
Definition constructor_initialization (this : MinioFileProviderService)
  : Task unit :=
  try_catch (initializeBucket this)
    (λ error, log Error ("Failed to initialize MinIO bucket: " +:+ message error)).

(** [Buffer.from(file.content, 'binary')] throws a [TypeError] when the
    content is [undefined]. *)
Definition Buffer_from (content : option string) : Task Buffer :=
  match content with
  | Some s => mret (Buffer_from_binary s)
  | None =>
      throw (OtherError "TypeError"
               "The first argument must be of type string or an instance of Buffer, ArrayBuffer, or Array or an Array-like Object. Received undefined")
  end.

(** [upload] *)
Definition upload (this : MinioFileProviderService)
    (file : option ProviderUploadFileDTO) : Task ProviderFileResultDTO :=
  match file with
  | None => throw (MedusaError INVALID_DATA "No file provided")
  | Some file =>
      if negb (truthy (filename file)) then
        throw (MedusaError INVALID_DATA "No filename provided")
      else
        let file_filename := default EmptyString (filename file) in
        try_catch
          (let parsedFilename := path_parse rt file_filename in
           u ← (λ w, mkRun (Returned (ulid rt w).1) (ulid rt w).2 []);
           let fileKey := name parsedFilename +:+ "-" +:+ u +:+ ext parsedFilename in
           content ← Buffer_from (content file);
           let metaData := [("Content-Type", mimeType file);
                            ("x-amz-meta-original-filename", Some file_filename);
                            ("x-amz-acl", Some "public-read")] in
           client_call
             (PutObject (bucket this) fileKey content (length content) metaData)
             (putObject (client this) (bucket this) fileKey content
                (length content) metaData);;
           let url := publicEndpoint this +:+ "/" +:+ bucket this +:+ "/" +:+ fileKey in
           log Info ("Successfully uploaded file " +:+ fileKey
                     +:+ " to MinIO bucket " +:+ bucket this);;
           log Info ("Generated public URL: " +:+ url);;
           mret {| url := url; key := fileKey |})
          (λ error,
             log Error ("Failed to upload file: " +:+ message error);;
             throw (MedusaError UNEXPECTED_STATE
                      ("Failed to upload file: " +:+ message error)))
  end.

(** The body of the [for (const file of files)] loop of [delete],
    followed by the remaining iterations. *)
Fixpoint delete_files (this : MinioFileProviderService)
    (files : list (option ProviderDeleteFileDTO)) : Task unit :=
  match files with
  | [] => mret tt
  | file :: rest =>
      if negb (truthy (fileKey_of file)) then
        throw (MedusaError INVALID_DATA "No file key provided")
      else
        let file_fileKey := default EmptyString (fileKey_of file) in
        try_catch
          (client_call (RemoveObject (bucket this) file_fileKey)
             (removeObject (client this) (bucket this) file_fileKey);;
           log Info ("Successfully deleted file " +:+ file_fileKey
                     +:+ " from MinIO bucket " +:+ bucket this))
          (λ error,
             log Warn ("Failed to delete file " +:+ file_fileKey +:+ ": "
                       +:+ message error));;
        delete_files this rest
  end.

(** [delete] *)
Definition delete (this : MinioFileProviderService) (fileData : DeleteInput)
  : Task unit :=
  let files := match fileData with
               | FileArray files => files
               | OneFile file => [file]
               end in
  delete_files this files.

(** [getPresignedDownloadUrl] *)
Definition getPresignedDownloadUrl (this : MinioFileProviderService)
    (fileData : option ProviderGetFileDTO) : Task string :=
  if negb (truthy (fileKey_of fileData)) then
    throw (MedusaError INVALID_DATA "No file key provided")
  else
    let fileData_fileKey := default EmptyString (fileKey_of fileData) in
    try_catch
      (url ← client_call
               (PresignedGetObject (bucket this) fileData_fileKey (24 * 60 * 60))
               (presignedGetObject (client this) (bucket this) fileData_fileKey
                  (24 * 60 * 60));
       log Info ("Generated presigned URL for file " +:+ fileData_fileKey);;
       mret url)
      (λ error,
         log Error ("Failed to generate presigned URL: " +:+ message error);;
         throw (MedusaError UNEXPECTED_STATE
                  ("Failed to generate presigned URL: " +:+ message error))).

(** [getPresignedUploadUrl] *)
Definition getPresignedUploadUrl (this : MinioFileProviderService)
    (fileData : option ProviderGetPresignedUploadUrlDTO)
  : Task ProviderFileResultDTO :=
  if negb (truthy (filename_of fileData)) then
    throw (MedusaError INVALID_DATA "No filename provided")
  else
    try_catch
      (let fileKey := default EmptyString (filename_of fileData) in
       url ← client_call
               (PresignedPutObject (bucket this) fileKey (15 * 60))
               (presignedPutObject (client this) (bucket this) fileKey (15 * 60));
       mret {| url := url; key := fileKey |})
      (λ error,
         log Error ("Failed to generate presigned upload URL: " +:+ message error);;
         throw (MedusaError UNEXPECTED_STATE
                  ("Failed to generate presigned upload URL: " +:+ message error))).

(** The promise [getAsBuffer] builds around the stream: [data] events
    push onto [chunks], [end] resolves with their concatenation, [error]
    rejects.  The first of [end] and [error] settles the promise; a
    stream that emits neither leaves it pending. *)
Fixpoint collect (stream : Readable) (chunks : list Buffer) : Outcome Buffer :=
  match stream with
  | [] => Pending
  | SData chunk :: later => collect later (chunks ++ [chunk])
  | SEnd :: _ => Returned (Buffer_concat chunks)
  | SError e :: _ => Threw e
  end.

(** [getAsBuffer] *)
Definition getAsBuffer (this : MinioFileProviderService)
    (fileData : option ProviderGetFileDTO) : Task Buffer :=
  if negb (truthy (fileKey_of fileData)) then
    throw (MedusaError INVALID_DATA "No file key provided")
  else
    let fileData_fileKey := default EmptyString (fileKey_of fileData) in
    try_catch
      (stream ← client_call (GetObject (bucket this) fileData_fileKey)
                  (getObject (client this) (bucket this) fileData_fileKey);
       buffer ← (λ w, mkRun (collect stream []) w []);
       log Info ("Retrieved buffer for file " +:+ fileData_fileKey);;
       mret buffer)
      (λ error,
         log Error ("Failed to get buffer: " +:+ message error);;
         throw (MedusaError UNEXPECTED_STATE
                  ("Failed to get buffer: " +:+ message error))).

(** [getDownloadStream] *)
Definition getDownloadStream (this : MinioFileProviderService)
    (fileData : option ProviderGetFileDTO) : Task Readable :=
  if negb (truthy (fileKey_of fileData)) then
    throw (MedusaError INVALID_DATA "No file key provided")
  else
    let fileData_fileKey := default EmptyString (fileKey_of fileData) in
    try_catch
      (minioStream ← client_call (GetObject (bucket this) fileData_fileKey)
                       (getObject (client this) (bucket this) fileData_fileKey);
       log Info ("Retrieved download stream for file " +:+ fileData_fileKey);;
       mret minioStream)
      (λ error,
         log Error ("Failed to get download stream: " +:+ message error);;
         throw (MedusaError UNEXPECTED_STATE
                  ("Failed to get download stream: " +:+ message error))).

(** ** The provider interface

    The framework reaches the adapter through the six methods of
    [AbstractFileProviderService]; a request names one of them with its
    argument, and a response is the value the method resolves to. *)
Inductive Request :=
| Upload (file : option ProviderUploadFileDTO)
| Delete (fileData : DeleteInput)
| GetPresignedDownloadUrl (fileData : option ProviderGetFileDTO)
| GetPresignedUploadUrl (fileData : option ProviderGetPresignedUploadUrlDTO)
| GetAsBuffer (fileData : option ProviderGetFileDTO)
| GetDownloadStream (fileData : option ProviderGetFileDTO).

Inductive Response :=
| FileResult (r : ProviderFileResultDTO)
| Done
| Url (u : string)
| Bytes (b : Buffer)
| Stream (s : Readable).

Definition invoke (this : MinioFileProviderService) (req : Request)
  : Task Response :=
  match req with
  | Upload file => FileResult <$> upload this file
  | Delete fileData => (λ _, Done) <$> delete this fileData
  | GetPresignedDownloadUrl fileData => Url <$> getPresignedDownloadUrl this fileData
  | GetPresignedUploadUrl fileData => FileResult <$> getPresignedUploadUrl this fileData
  | GetAsBuffer fileData => Bytes <$> getAsBuffer this fileData
  | GetDownloadStream fileData => Stream <$> getDownloadStream this fileData
  end.

(** The field each method requires is missing ([undefined], [null] or
    empty); for an array given to [delete], in at least one element. *)
Definition missing_required (req : Request) : bool :=
  match req with
  | Upload file => negb (truthy (file ≫= filename))
  | Delete (OneFile file) => negb (truthy (fileKey_of file))
  | Delete (FileArray files) => existsb (λ file, negb (truthy (fileKey_of file))) files
  | GetPresignedDownloadUrl fileData => negb (truthy (fileKey_of fileData))
  | GetPresignedUploadUrl fileData => negb (truthy (filename_of fileData))
  | GetAsBuffer fileData => negb (truthy (fileKey_of fileData))
  | GetDownloadStream fileData => negb (truthy (fileKey_of fileData))
  end.

(** The keys of the array elements that come before the first element
    without a key. *)
Fixpoint keys_before_missing (files : list (option ProviderDeleteFileDTO))
  : list string :=
  match files with
  | [] => []
  | file :: rest =>
      if truthy (fileKey_of file)
      then default EmptyString (fileKey_of file) :: keys_before_missing rest
      else []
  end.

Definition leading_keys (req : Request) : list string :=
  match req with
  | Delete (FileArray files) => keys_before_missing files
  | Delete (OneFile file) => keys_before_missing [file]
  | _ => []
  end.

(** An element of the array that [delete] refuses. *)
Definition no_key (file : option ProviderDeleteFileDTO) : bool :=
  negb (truthy (fileKey_of file)).

(** The error [delete] and the read methods throw for a missing key. *)
Definition rejected : JsError := MedusaError INVALID_DATA "No file key provided".

(** The array [delete] iterates over:
    [Array.isArray(fileData) ? fileData : [fileData]]. *)
Definition files_of (fileData : DeleteInput) : list (option ProviderDeleteFileDTO) :=
  match fileData with
  | FileArray files => files
  | OneFile file => [file]
  end.

(** A run that threw [INVALID_DATA] from world [w] before doing
    anything else. *)
Definition refused {A} (r : Run W Event A) (w : W) : Prop :=
  ∃ m, r = mkRun (Threw (MedusaError INVALID_DATA m)) w [].

(** The text each method puts before the message of an error it caught;
    [delete] re-throws nothing and has none. *)
Definition failure_text (req : Request) : string :=
  match req with
  | Upload _ => "Failed to upload file: "
  | Delete _ => EmptyString
  | GetPresignedDownloadUrl _ => "Failed to generate presigned URL: "
  | GetPresignedUploadUrl _ => "Failed to generate presigned upload URL: "
  | GetAsBuffer _ => "Failed to get buffer: "
  | GetDownloadStream _ => "Failed to get download stream: "
  end.

(** How a stream stops: with an [end] event or with an [error] event. *)
Inductive Ending :=
| Ended
| Errored (e : JsError).

Definition ending_event (x : Ending) : StreamEvent :=
  match x with
  | Ended => SEnd
  | Errored e => SError e
  end.

(** No character of [s] is a slash. *)
Fixpoint no_slash (s : string) : bool :=
  match s with
  | EmptyString => true
  | String c r => negb (Ascii.eqb c "/"%char) && no_slash r
  end.

(** What a caught error [e] becomes in the five methods that re-throw:
    the run throws a [MedusaError] made from [e]'s message, right after
    logging that message. *)
Definition translated (text : string) (e : JsError) {A} (r : Run W Event A) : Prop :=
  outcome r = Threw (MedusaError UNEXPECTED_STATE (text +:+ message e))
  ∧ last (trace r) = Some (Log Error (text +:+ message e)).

(** ** The rest of the service *)

(** [requiredFields] of [validateOptions] *)
Definition requiredFields : list string := ["endPoint"; "accessKey"; "secretKey"].

(** The [forEach] of [validateOptions] over [fields]: the first field
    whose option is missing or empty throws.  The options object is a
    finite map from property names to strings; an absent property reads
    as [undefined]. *)
Fixpoint check_required (options : gmap string string) (fields : list string)
  : Outcome unit :=
  match fields with
  | [] => Returned tt
  | field :: rest =>
      if negb (truthy (options !! field)) then
        Threw (MedusaError INVALID_DATA
                 (field +:+ " is required in the provider's options"))
      else check_required options rest
  end.

(** [validateOptions] *)
Definition validateOptions (options : gmap string string) : Outcome unit :=
  check_required options requiredFields.

(** The [urlString] of [parseEndpoint]: the text handed to [new URL]. *)
Definition urlString (endpoint : string) : string :=
  if negb (String.prefix "http://" endpoint) && negb (String.prefix "https://" endpoint)
  then "https://" +:+ endpoint
  else endpoint.

(** The options object the constructor hands to [new Client]. *)
Definition clientOptions (endpointUrl : ParsedEndpoint)
    (config_ : MinioServiceConfig) : ClientOptions :=
  {| c_endPoint := hostname endpointUrl;
     c_port := port endpointUrl;
     c_useSSL := String.eqb (protocol endpointUrl) "https:";
     c_accessKey := accessKey config_;
     c_secretKey := secretKey config_ |}.

(** No character of [s] is a colon. *)
Fixpoint no_colon (s : string) : bool :=
  match s with
  | EmptyString => true
  | String c r => negb (Ascii.eqb c ":"%char) && no_colon r
  end.

(** The keys of all the elements of an array given to [delete]. *)
Definition all_keys (files : list (option ProviderDeleteFileDTO)) : list string :=
  map (λ file, default EmptyString (fileKey_of file)) files.

(** The type of error a request can end in: [INVALID_DATA] when its
    required field is missing, [UNEXPECTED_STATE] otherwise. *)
Definition error_type (req : Request) : MedusaErrorType :=
  if missing_required req then INVALID_DATA else UNEXPECTED_STATE.

(** The most client calls a request can make: one per element for
    [delete], one for every other method. *)
Definition call_budget (req : Request) : nat :=
  match req with
  | Delete fileData => length (files_of fileData)
  | _ => 1%nat
  end.
End Service.

Arguments Client : clear implicits.
Arguments Runtime : clear implicits.
Arguments MinioFileProviderService : clear implicits.

End Minio.

(** * An in-memory object store

    A small client and runtime against which the adapter can be run: the
    store is a finite map from (bucket, key) to contents, removing or
    reading an unknown key is an error, and ULIDs come from a counter.
    It serves to exhibit concrete executions; no general statement
    depends on it. *)

Module InMemory.
Import Minio.

Record Store := {
  buckets : gset string;
  policies : gmap string string;
  objects : gmap (string * string) Buffer;
  ticks : N
}.

Definition no_such_bucket : JsError :=
  OtherError "S3Error" "The specified bucket does not exist".
Definition no_such_key : JsError :=
  OtherError "S3Error" "The specified key does not exist.".

Definition mem_client : Client Store := {|
  bucketExists b := λ w, (Returned (bool_decide (b ∈ buckets w)), w);
  makeBucket b := λ w,
    (Returned tt, {| buckets := {[ b ]} ∪ buckets w; policies := policies w;
                     objects := objects w; ticks := ticks w |});
  setBucketPolicy b policy := λ w,
    if bool_decide (b ∈ buckets w)
    then (Returned tt, {| buckets := buckets w; policies := <[b := policy]> (policies w);
                          objects := objects w; ticks := ticks w |})
    else (Threw no_such_bucket, w);
  putObject b k data size metaData := λ w,
    if bool_decide (b ∈ buckets w)
    then (Returned tt, {| buckets := buckets w; policies := policies w;
                          objects := <[(b, k) := data]> (objects w); ticks := ticks w |})
    else (Threw no_such_bucket, w);
  removeObject b k := λ w,
    match objects w !! (b, k) with
    | Some _ => (Returned tt, {| buckets := buckets w; policies := policies w;
                                 objects := base.delete (b, k) (objects w);
                                 ticks := ticks w |})
    | None => (Threw no_such_key, w)
    end;
  presignedGetObject b k expiry := λ w,
    (Returned ("http://minio.local:9000/" +:+ b +:+ "/" +:+ k
               +:+ "?X-Amz-Expires=" +:+ pretty expiry), w);
  presignedPutObject b k expiry := λ w,
    (Returned ("http://minio.local:9000/" +:+ b +:+ "/" +:+ k
               +:+ "?X-Amz-Expires=" +:+ pretty expiry), w);
  getObject b k := λ w,
    match objects w !! (b, k) with
    | Some data => (Returned [SData data; SEnd], w)
    | None => (Threw no_such_key, w)
    end
|}.

(** The last path segment, split at its last dot (a dot at the start of
    the segment does not begin an extension). *)
Fixpoint last_segment (s acc : string) : string :=
  match s with
  | EmptyString => acc
  | String c r =>
      if Ascii.eqb c "/"%char then last_segment r EmptyString
      else last_segment r (acc +:+ String c EmptyString)
  end.

Fixpoint split_ext (s stem : string) : string * string :=
  match s with
  | EmptyString => (stem, EmptyString)
  | String c r =>
      let '(n, e) := split_ext r (stem +:+ String c EmptyString) in
      match e with
      | EmptyString =>
          if Ascii.eqb c "."%char && negb (String.eqb stem EmptyString)
          then (stem, String c r)
          else (n, e)
      | _ => (n, e)
      end
  end.

Definition mem_path_parse (p : string) : ParsedPath :=
  let '(n, e) := split_ext (last_segment p EmptyString) EmptyString in
  {| name := n; ext := e |}.

(** A 26-character identifier that changes with every tick. *)
Definition mem_ulid (w : Store) : string * Store :=
  let digits := pretty (ticks w mod 10000)%N in
  ("01JBCDEFGHJKMNPQRSTVWX" +:+
     substring 0 (4 - String.length digits) "0000" +:+ digits,
   {| buckets := buckets w; policies := policies w; objects := objects w;
      ticks := (ticks w + 1)%N |}).

(** Decimal digits only. *)
Fixpoint digits_value (s : string) (acc : Z) : JsNumber :=
  match s with
  | EmptyString => JsInt acc
  | String c r =>
      let n := Z.of_nat (nat_of_ascii c) - 48 in
      if (0 <=? n) && (n <=? 9) then digits_value r (10 * acc + n) else NaN
  end.

(** A digit string that denotes a number beyond the largest double
    reads as [Infinity]. *)
Definition mem_parseInt10 (s : string) : JsNumber :=
  match s with
  | EmptyString => NaN
  | _ => match digits_value s 0 with
         | JsInt z => if z <? 2 ^ 1024 - 2 ^ 970 then JsInt z else Infinity false
         | other => other
         end
  end.

Fixpoint drop_trailing_zeros (s : string) : string :=
  match s with
  | EmptyString => EmptyString
  | String c r =>
      match drop_trailing_zeros r with
      | EmptyString => if Ascii.eqb c "0"%char then EmptyString else String c EmptyString
      | kept => String c kept
      end
  end.

(** Exponent form from the decimal digits of the integer: [d.ddd e+n]
    without trailing zeros. *)
Definition mem_exponent_form (z : Z) : string :=
  match pretty (Z.abs z) with
  | String d rest =>
      (if z <? 0 then "-" else EmptyString)
      +:+ String d (match drop_trailing_zeros rest with
                    | EmptyString => EmptyString
                    | fraction => "." +:+ fraction
                    end)
      +:+ "e+" +:+ pretty (String.length rest)
  | EmptyString => EmptyString
  end.

(** Large integers from their own decimal digits: plain below 1e21, in
    exponent form from there up.  These are the digits [Number::toString]
    prints when the integer has at most 15 significant digits (a power
    of ten, for one). *)
Definition mem_big_toString (z : Z) : string :=
  if Z.abs z <? 10 ^ 21 then pretty z else mem_exponent_form z.

(** The text of [s] up to the first [stop] character, and what follows
    that character (if there is one). *)
Fixpoint cut_at (stop : ascii) (s : string) : string * option string :=
  match s with
  | EmptyString => (EmptyString, None)
  | String c r =>
      if Ascii.eqb c stop then (EmptyString, Some r)
      else let '(before, after) := cut_at stop r in (String c before, after)
  end.

(** URLs of the form [scheme://host], [scheme://host:port] and
    [scheme://host:port/path] for the schemes [http] and [https]; a port
    that is the scheme's default reads as the empty string.  Anything
    else is rejected. *)
Definition mem_URL_new (s : string) : JsError + URL :=
  let invalid := inl (OtherError "TypeError" "Invalid URL") in
  let parse scheme default_port rest :=
    let authority := (cut_at "/" rest).1 in
    let '(h, p) := cut_at ":" authority in
    let p := default EmptyString p in
    let p := if String.eqb p default_port then EmptyString else p in
    match h with
    | EmptyString => invalid
    | _ => inr {| url_protocol := scheme;
                  url_hostname := h;
                  url_port := p;
                  url_host := match p with
                              | EmptyString => h
                              | _ => h +:+ ":" +:+ p
                              end |}
    end in
  if String.prefix "https://" s
  then parse "https:" "443" (substring 8 (String.length s) s)
  else if String.prefix "http://" s
       then parse "http:" "80" (substring 7 (String.length s) s)
       else invalid.

(** The double quote character. *)
Definition quote : string := String (ascii_of_nat 34) EmptyString.

(** JSON text without white space; the strings the adapter serialises
    need no escaping. *)
Fixpoint mem_stringify (j : Json) : string :=
  match j with
  | JStr s => quote +:+ s +:+ quote
  | JArr items =>
      "[" +:+ (fix items_text (l : list Json) : string :=
                 match l with
                 | [] => EmptyString
                 | x :: [] => mem_stringify x
                 | x :: r => mem_stringify x +:+ "," +:+ items_text r
                 end) items +:+ "]"
  | JObj fields =>
      "{" +:+ (fix fields_text (l : list (string * Json)) : string :=
                 match l with
                 | [] => EmptyString
                 | (k, v) :: [] => quote +:+ k +:+ quote +:+ ":" +:+ mem_stringify v
                 | (k, v) :: r =>
                     quote +:+ k +:+ quote +:+ ":" +:+ mem_stringify v +:+ ","
                     +:+ fields_text r
                 end) fields +:+ "}"
  end.

Definition mem_runtime : Runtime Store := {|
  URL_new := mem_URL_new;
  parseInt10 := mem_parseInt10;
  big_toString := mem_big_toString;
  JSON_stringify := mem_stringify;
  path_parse := mem_path_parse;
  ulid := mem_ulid;
  Client_new options :=
    match c_port options with
    | JsInt _ => inr mem_client
    | _ => inl (OtherError "InvalidPortError" "Invalid port")
    end
|}.

Definition empty_store : Store :=
  {| buckets := ∅; policies := ∅; objects := ∅; ticks := 0 |}.

(** A store holding one object, [logo.png], in the default bucket. *)
Definition one_object_store : Store :=
  {| buckets := {[ DEFAULT_BUCKET ]};
     policies := ∅;
     objects := {[ (DEFAULT_BUCKET, "logo.png") := Buffer_from_binary "PNG" ]};
     ticks := 7 |}.

Definition mem_options : MinioFileProviderOptions :=
  {| endPoint := "minio.local:9000";
     accessKey := "minio";
     secretKey := "secret";
     opt_bucket := None;
     opt_publicEndpoint := None |}.

Definition mem_service : MinioFileProviderService Store :=
  {| config_ := mem_options;
     client := mem_client;
     bucket := DEFAULT_BUCKET;
     publicEndpoint := "https://minio.local:9000" |}.

(** A stricter [new URL], which also rejects a port that is not a
    number from 0 to 65535, and the runtime that uses it. *)
Definition strict_URL_new (s : string) : JsError + URL :=
  match mem_URL_new s with
  | inr url =>
      match url_port url with
      | EmptyString => inr url
      | p => match mem_parseInt10 p with
             | JsInt z =>
                 if z <=? 65535 then inr url
                 else inl (OtherError "TypeError" "Invalid URL")
             | _ => inl (OtherError "TypeError" "Invalid URL")
             end
      end
  | inl error => inl error
  end.

Definition strict_runtime : Runtime Store := {|
  URL_new := strict_URL_new;
  parseInt10 := mem_parseInt10;
  big_toString := mem_big_toString;
  JSON_stringify := mem_stringify;
  path_parse := mem_path_parse;
  ulid := mem_ulid;
  Client_new := Client_new mem_runtime
|}.

(** A client whose credentials may read and write objects but not
    administer buckets. *)
Definition access_denied : JsError := OtherError "S3Error" "Access Denied".

Definition readonly_client : Client Store := {|
  bucketExists := bucketExists mem_client;
  makeBucket b := λ w, (Threw access_denied, w);
  setBucketPolicy b policy := λ w, (Threw access_denied, w);
  putObject := putObject mem_client;
  removeObject := removeObject mem_client;
  presignedGetObject := presignedGetObject mem_client;
  presignedPutObject := presignedPutObject mem_client;
  getObject := getObject mem_client
|}.

(** A client whose streams deliver the object and then stall: they emit
    neither [end] nor [error]. *)
Definition stalling_client : Client Store := {|
  bucketExists := bucketExists mem_client;
  makeBucket := makeBucket mem_client;
  setBucketPolicy := setBucketPolicy mem_client;
  putObject := putObject mem_client;
  removeObject := removeObject mem_client;
  presignedGetObject := presignedGetObject mem_client;
  presignedPutObject := presignedPutObject mem_client;
  getObject b k := λ w,
    match objects w !! (b, k) with
    | Some data => (Returned [SData data], w)
    | None => (Threw no_such_key, w)
    end
|}.

(** Sample inputs. *)
Definition logo : option ProviderGetFileDTO := Some {| fileKey := Some "logo.png" |}.
Definition ghost : option ProviderGetFileDTO := Some {| fileKey := Some "ghost.png" |}.
Definition keyless : option ProviderGetFileDTO := Some {| fileKey := None |}.

(** An array whose second element has no key. *)
Definition array_with_gap : DeleteInput := FileArray [logo; keyless; ghost].

Definition cat_picture : ProviderUploadFileDTO :=
  {| filename := Some "pets/cat.png";
     mimeType := Some "image/png";
     content := Some "abc" |}.

Definition readonly_service : MinioFileProviderService Store :=
  {| config_ := mem_options;
     client := readonly_client;
     bucket := DEFAULT_BUCKET;
     publicEndpoint := "https://minio.local:9000" |}.

Definition stalling_service : MinioFileProviderService Store :=
  {| config_ := mem_options;
     client := stalling_client;
     bucket := DEFAULT_BUCKET;
     publicEndpoint := "https://minio.local:9000" |}.

(** An upload whose [content] is [undefined]. *)
Definition empty_handed : ProviderUploadFileDTO :=
  {| filename := Some "notes.txt"; mimeType := Some "text/plain"; content := None |}.

(** Options that name a bucket, and the service constructed from them. *)
Definition uploads_options : MinioFileProviderOptions :=
  {| endPoint := "minio.local:9000";
     accessKey := "minio";
     secretKey := "secret";
     opt_bucket := Some "uploads";
     opt_publicEndpoint := None |}.

Definition uploads_service : MinioFileProviderService Store :=
  {| config_ := uploads_options;
     client := mem_client;
     bucket := "uploads";
     publicEndpoint := "https://minio.local:9000" |}.

(** A store that has the bucket [uploads], with one object in it. *)
Definition uploads_store : Store :=
  {| buckets := {[ "uploads" ]};
     policies := ∅;
     objects := {[ ("uploads", "logo.png") := Buffer_from_binary "PNG" ]};
     ticks := 7 |}.

(** Options without the access key, as a property map. *)
Definition keyless_options : gmap string string :=
  {[ "endPoint" := "minio.local:9000"; "secretKey" := "secret" ]}.

(** Options whose endpoint names no port. *)
Definition portless_options : MinioFileProviderOptions :=
  {| endPoint := "minio.local";
     accessKey := "minio";
     secretKey := "secret";
     opt_bucket := None;
     opt_publicEndpoint := None |}.


End InMemory.

(** * The FeaturedProducts component *)

Module Storefront.

(** The parts of Medusa's [StoreCollection], [StoreProduct] and
    [StoreRegion] the component reads. *)
Record StoreProduct := { product_id : string }.

Record StoreCollection := {
  collection_id : string;
  title : string;
  products : option (list StoreProduct)
}.

Record StoreRegion := { region_id : string }.

(** What [listCollections] resolves to; the component reads its
    [collections] property. *)
Record CollectionsResponse := { collections : option (list StoreCollection) }.

(** The React elements the component builds. *)
#[local] Unset Elimination Schemes.
Inductive Element :=
| ul (className : string) (children : list Element)
| li (key : string) (children : list Element)
| ProductRail (collection : StoreCollection) (region : StoreRegion).
#[local] Set Elimination Schemes.

(** An argument of [console.log]. *)
Inductive ConsoleArg :=
| Text (s : string)
| Number (n : nat).

Inductive Event :=
| ListCollections (queryParams : list (string * string))
| GetRegion (countryCode : string)
| ConsoleLog (args : list ConsoleArg).

Section Component.
Context {W : Type}.

(** The two data functions the component imports from [@/lib/data];
    they fetch over HTTP and are not defined here. *)
Record Data := {
  listCollections : list (string * string) → W → Outcome CollectionsResponse * W;
  getRegion : string → W → Outcome (option StoreRegion) * W
}.

Variable data : Data.

(** [collections.forEach((col, i) => console.log(...))], from index [i]. *)
Fixpoint log_collections (i : nat) (cols : list StoreCollection)
  : M W Event unit :=
  match cols with
  | [] => mret tt
  | col :: rest =>
      emit (ConsoleLog [Text ("[FeaturedProducts] Collection " +:+ pretty i +:+ ": "
                              +:+ title col +:+ ", products: "
                              +:+ pretty (from_option length 0%nat (products col)))]);;
      log_collections (S i) rest
  end.

(** [FeaturedProducts]; [None] is [null]. *)
Definition FeaturedProducts (countryCode : string) : M W Event (option Element) :=
  response ← perform (λ _, ListCollections [("limit", "3"); ("fields", "*products")])
               (listCollections data [("limit", "3"); ("fields", "*products")]);
  let collections := collections response in
  region ← perform (λ _, GetRegion countryCode) (getRegion data countryCode);
  emit (ConsoleLog [Text "[FeaturedProducts] Collections count:";
                    Number (from_option length 0%nat collections)]);;
  emit (ConsoleLog [Text "[FeaturedProducts] Region:";
                    Text (or_else (region_id <$> region) "none")]);;
  match collections with
  | Some (col :: cols) => log_collections 0 (col :: cols)
  | _ => mret tt
  end;;
  match collections, region with
  | Some collections, Some region =>
      mret (Some (ul "flex flex-col gap-x-6 bg-neutral-100"
                    (map (λ collection,
                            li (collection_id collection)
                               [ProductRail collection region])
                         collections)))
  | _, _ => mret None
  end.
End Component.

Arguments Data : clear implicits.

(** A fixed catalogue: two collections, and a region for Denmark only. *)
Definition summer : StoreCollection :=
  {| collection_id := "pcol_1"; title := "Summer";
     products := Some [{| product_id := "prod_1" |}; {| product_id := "prod_2" |}] |}.
Definition winter : StoreCollection :=
  {| collection_id := "pcol_2"; title := "Winter"; products := None |}.
Definition europe : StoreRegion := {| region_id := "reg_eu" |}.

Definition fixed_data : Data unit := {|
  listCollections q := λ w, (Returned {| collections := Some [summer; winter] |}, w);
  getRegion countryCode := λ w,
    (Returned (if String.eqb countryCode "dk" then Some europe else None), w)
|}.

(** A backend that cannot be reached. *)
Definition offline_data : Data unit := {|
  listCollections q := λ w, (Threw (OtherError "TypeError" "fetch failed"), w);
  getRegion countryCode := λ w, (Returned None, w)
|}.

End Storefront.


(** * Properties of the MinIO file provider *)

Module MinioProperties.
Import Minio.

(** Evaluates a computation as far as the replies of the outside allow. *)
Ltac run :=
  unfold fmap, M_fmap, mbind, M_bind, mret, M_ret, log, client_call,
    bind, try_catch, continue, perform, emit, ret, throw in *;
  cbn [outcome final trace fst snd reply_of app negb] in *.

(** Case analysis on how the next pending call to the outside settles. *)
Ltac settle :=
  match goal with
  | |- context [match ?call with pair _ _ => _ end] =>
      destruct call as [[?|?|] ?] eqn:?; run
  end.

(** Which element of an explicit list a membership hypothesis refers to. *)
Ltac pick H :=
  repeat (apply elem_of_cons in H as [H|H]);
  try discriminate H; try (by apply elem_of_nil in H).

Lemma client_calls_call c reply t :
  client_calls (Call c reply :: t) = c :: client_calls t.
Proof. reflexivity. Qed.

Lemma client_calls_log l m t : client_calls (Log l m :: t) = client_calls t.
Proof. reflexivity. Qed.

Lemma truthy_or_else (x : option string) (d : string) :
  or_else x d = if truthy x then default EmptyString x else d.
Proof. by destruct x as [[|c r]|]. Qed.

Section General.
Context {W : Type}.
Variable rt : Runtime W.
Variable this : MinioFileProviderService W.

Implicit Types (w : W) (files : list (option ProviderDeleteFileDTO)).

(** One iteration of the loop of [delete] on an element that has a key. *)
Lemma delete_files_step file files w :
  truthy (fileKey_of file) = true →
  let k := default EmptyString (fileKey_of file) in
  let reply := removeObject (client this) (bucket this) k w in
  let r' := delete_files this files reply.2 in
  delete_files this (file :: files) w =
    match reply.1 with
    | Returned _ =>
        mkRun (outcome r') (final r')
          (Call (RemoveObject (bucket this) k) Ok
           :: Log Info ("Successfully deleted file " +:+ k
                        +:+ " from MinIO bucket " +:+ bucket this)
           :: trace r')
    | Threw e =>
        mkRun (outcome r') (final r')
          (Call (RemoveObject (bucket this) k) (Failed e)
           :: Log Warn ("Failed to delete file " +:+ k +:+ ": " +:+ message e)
           :: trace r')
    | Pending => mkRun Pending reply.2 [Call (RemoveObject (bucket this) k) Hung]
    end.
Proof.
  intros Hk k reply r'. subst r' reply k.
  cbn [delete_files]. rewrite Hk. cbn [negb]. run.
  destruct (removeObject _ _ _ w) as [[a|e|] w']; cbn [fst snd]; [| |done];
    by destruct (delete_files this files w').
Qed.

(** An element without a key stops the loop on the spot. *)
Lemma delete_files_stop file files w :
  truthy (fileKey_of file) = false →
  delete_files this (file :: files) w =
    mkRun (Threw (MedusaError INVALID_DATA "No file key provided")) w [].
Proof. intros Hk. cbn [delete_files]. by rewrite Hk. Qed.

(** The facts about a run of the loop that the claims about [delete]
    draw on, proved together by induction on the array. *)
Lemma delete_files_run files : ∀ w,
  let r := delete_files this files w in
  let removals := map (RemoveObject (bucket this)) (keys_before_missing files) in
  client_calls (trace r) `prefix_of` removals
  ∧ (∀ e, outcome r = Threw e →
          e = rejected ∧ existsb no_key files = true
          ∧ client_calls (trace r) = removals)
  ∧ (outcome r = Returned tt → existsb no_key files = false)
  ∧ (outcome r = Pending →
     ∃ k, last (trace r) = Some (Call (RemoveObject (bucket this) k) Hung)).
Proof.
  induction files as [|file files IH]; intros w; cbn zeta.
  - cbn. repeat split; done.
  - destruct (truthy (fileKey_of file)) eqn:Hk.
    + rewrite (delete_files_step _ _ _ Hk). cbn zeta.
      cbn [keys_before_missing existsb map]. rewrite Hk.
      unfold no_key at 1 3. rewrite Hk. cbn [negb orb].
      destruct (removeObject _ _ _ w) as [reply w'].
      specialize (IH w'). cbn zeta in IH.
      destruct IH as (IHp & IHt & IHr & IHh).
      destruct reply as [[]|e|]; cbn [fst snd outcome final trace].
      1, 2: (rewrite client_calls_call, client_calls_log;
             split; [by apply prefix_cons|];
             split; [intros e0 H; destruct (IHt e0 H) as (-> & ? & Hc);
                     repeat split; [done | by rewrite Hc]|];
             split; [done|];
             intros Hp; destruct (IHh Hp) as [k Hl]; exists k;
             rewrite !last_cons, Hl; done).
      repeat split; try done.
      * cbn. apply prefix_cons, prefix_nil.
      * by eexists.
    + rewrite (delete_files_stop _ _ _ Hk).
      cbn [keys_before_missing existsb map outcome trace]. rewrite Hk.
      unfold no_key at 1 3. rewrite Hk. cbn.
      repeat split; try done.
      by injection H as <-.
Qed.

(** Every failed removal is followed at once by its warning. *)
Lemma delete_files_failed files : ∀ w c e,
  Call c (Failed e) ∈ trace (delete_files this files w) →
  ∃ k before after,
    c = RemoveObject (bucket this) k
    ∧ trace (delete_files this files w)
      = before ++ Call c (Failed e)
          :: Log Warn ("Failed to delete file " +:+ k +:+ ": " +:+ message e)
          :: after.
Proof.
  induction files as [|file files IH]; intros w c e.
  - cbn. by intros ?%elem_of_nil.
  - destruct (truthy (fileKey_of file)) eqn:Hk.
    + rewrite (delete_files_step _ _ _ Hk). cbn zeta.
      destruct (removeObject _ _ _ w) as [reply w'].
      destruct reply as [[]|e'|]; cbn [fst snd outcome final trace].
      * intros [H|[H|H]%elem_of_cons]%elem_of_cons; try discriminate H.
        destruct (IH _ _ _ H) as (k & b & a & -> & ->).
        exists k, (Call (RemoveObject (bucket this)
                           (default EmptyString (fileKey_of file))) Ok
                   :: Log Info ("Successfully deleted file "
                                +:+ default EmptyString (fileKey_of file)
                                +:+ " from MinIO bucket " +:+ bucket this)
                   :: b), a.
        done.
      * intros [H|[H|H]%elem_of_cons]%elem_of_cons; try discriminate H.
        -- injection H as -> ->.
           by exists (default EmptyString (fileKey_of file)), [],
                     (trace (delete_files this files w')).
        -- destruct (IH _ _ _ H) as (k & b & a & -> & ->).
           exists k, (Call (RemoveObject (bucket this)
                              (default EmptyString (fileKey_of file))) (Failed e')
                      :: Log Warn ("Failed to delete file "
                                   +:+ default EmptyString (fileKey_of file)
                                   +:+ ": " +:+ message e')
                      :: b), a.
           done.
      * intros [H|H%elem_of_nil]%elem_of_cons; [discriminate H | done].
    + rewrite (delete_files_stop _ _ _ Hk). cbn. by intros ?%elem_of_nil.
Qed.

(** A single input whose removal failed: [delete] returns. *)
Lemma delete_one_failed file w c e :
  truthy (fileKey_of file) = true →
  Call c (Failed e) ∈ trace (delete_files this [file] w) →
  outcome (delete_files this [file] w) = Returned tt.
Proof.
  intros Hk. rewrite (delete_files_step _ _ _ Hk). cbn zeta.
  destruct (removeObject _ _ _ w) as [[[]|e'|] w'];
    cbn [fst snd outcome final trace delete_files]; run; try done.
  all: intros Hin; pick Hin.
Qed.

(** A method seen through [invoke] settles as the method does. *)
Lemma fmap_trace {A B} (f : A → B) (m : M W Event A) w :
  trace ((f <$> m) w) = trace (m w).
Proof. run. destruct (m w) as [[a|e|] w' t]; cbn; [apply app_nil_r | done | done]. Qed.


Lemma fmap_outcome {A B} (f : A → B) (m : M W Event A) w :
  outcome ((f <$> m) w) =
    match outcome (m w) with
    | Returned a => Returned (f a)
    | Threw e => Threw e
    | Pending => Pending
    end.
Proof. run. by destruct (m w) as [[a|e|] w' t]. Qed.

Lemma existsb_no_key_head files :
  existsb no_key files = true → keys_before_missing files = [] →
  ∃ file rest, files = file :: rest ∧ truthy (fileKey_of file) = false.
Proof.
  destruct files as [|file rest]; [done|].
  cbn [existsb keys_before_missing]. unfold no_key at 1.
  destruct (truthy (fileKey_of file)) eqn:Hk; [done|].
  intros _ _. by exists file, rest.
Qed.

Lemma upload_refuses file w :
  truthy (file ≫= filename) = false → refused (upload rt this file w) w.
Proof.
  destruct file as [file|]; cbn [mbind option_bind]; intros Hf; unfold upload.
  - rewrite Hf. by eexists.
  - by eexists.
Qed.

Lemma getPresignedDownloadUrl_refuses fileData w :
  truthy (fileKey_of fileData) = false →
  refused (getPresignedDownloadUrl this fileData w) w.
Proof. intros Hf. unfold getPresignedDownloadUrl. rewrite Hf. by eexists. Qed.

Lemma getPresignedUploadUrl_refuses fileData w :
  truthy (filename_of fileData) = false →
  refused (getPresignedUploadUrl this fileData w) w.
Proof. intros Hf. unfold getPresignedUploadUrl. rewrite Hf. by eexists. Qed.

Lemma getAsBuffer_refuses fileData w :
  truthy (fileKey_of fileData) = false → refused (getAsBuffer this fileData w) w.
Proof. intros Hf. unfold getAsBuffer. rewrite Hf. by eexists. Qed.

Lemma getDownloadStream_refuses fileData w :
  truthy (fileKey_of fileData) = false →
  refused (getDownloadStream this fileData w) w.
Proof. intros Hf. unfold getDownloadStream. rewrite Hf. by eexists. Qed.

Lemma fmap_refused {A B} (f : A → B) (m : M W Event A) w :
  refused (m w) w → refused ((f <$> m) w) w.
Proof. intros [msg H]. exists msg. run. by rewrite H. Qed.

Lemma missing_required_delete fileData :
  missing_required (Delete fileData) = existsb no_key (files_of fileData).
Proof.
  destruct fileData as [file|files]; cbn [missing_required files_of existsb].
  - unfold no_key. by rewrite orb_false_r.
  - done.
Qed.

Lemma leading_keys_delete fileData :
  leading_keys (Delete fileData) = keys_before_missing (files_of fileData).
Proof. by destruct fileData. Qed.

Lemma delete_unfold fileData w :
  delete this fileData w = delete_files this (files_of fileData) w.
Proof. by destruct fileData. Qed.

(** *** Errors of the client in the five methods that re-throw *)

Lemma upload_translates file w c e :
  Call c (Failed e) ∈ trace (upload rt this file w) →
  translated "Failed to upload file: " e (upload rt this file w).
Proof.
  unfold upload, translated. destruct file as [file|]; [|by intros ?%elem_of_nil].
  destruct (truthy (filename file)); cbn [negb]; [|by intros ?%elem_of_nil].
  unfold Buffer_from. destruct (content file) as [data|]; run.
  - settle; intros H; pick H. by injection H as _ <-.
  - intros H; pick H.
Qed.

Lemma getPresignedDownloadUrl_translates fileData w c e :
  Call c (Failed e) ∈ trace (getPresignedDownloadUrl this fileData w) →
  translated "Failed to generate presigned URL: " e
    (getPresignedDownloadUrl this fileData w).
Proof.
  unfold getPresignedDownloadUrl, translated.
  destruct (truthy (fileKey_of fileData)); cbn [negb]; [|by intros ?%elem_of_nil].
  run. settle; intros H; pick H. by injection H as _ <-.
Qed.

Lemma getPresignedUploadUrl_translates fileData w c e :
  Call c (Failed e) ∈ trace (getPresignedUploadUrl this fileData w) →
  translated "Failed to generate presigned upload URL: " e
    (getPresignedUploadUrl this fileData w).
Proof.
  unfold getPresignedUploadUrl, translated.
  destruct (truthy (filename_of fileData)); cbn [negb]; [|by intros ?%elem_of_nil].
  run. settle; intros H; pick H. by injection H as _ <-.
Qed.

Lemma getDownloadStream_translates fileData w c e :
  Call c (Failed e) ∈ trace (getDownloadStream this fileData w) →
  translated "Failed to get download stream: " e
    (getDownloadStream this fileData w).
Proof.
  unfold getDownloadStream, translated.
  destruct (truthy (fileKey_of fileData)); cbn [negb]; [|by intros ?%elem_of_nil].
  run. settle; intros H; pick H. by injection H as _ <-.
Qed.

Lemma getAsBuffer_translates fileData w c e :
  Call c (Failed e) ∈ trace (getAsBuffer this fileData w) →
  translated "Failed to get buffer: " e (getAsBuffer this fileData w).
Proof.
  unfold getAsBuffer, translated.
  destruct (truthy (fileKey_of fileData)); cbn [negb]; [|by intros ?%elem_of_nil].
  run. settle.
  - destruct (collect _ _); run; intros H; pick H.
  - intros H; pick H. by injection H as _ <-.
  - intros H; pick H.
Qed.

Lemma fmap_translated {A B} (f : A → B) (m : M W Event A) text e w :
  translated text e (m w) → translated text e ((f <$> m) w).
Proof.
  unfold translated. rewrite fmap_outcome, fmap_trace. by intros [-> ->].
Qed.

(** *** The calls each method makes *)

Lemma getPresignedDownloadUrl_calls fileData w :
  truthy (fileKey_of fileData) = true →
  client_calls (trace (getPresignedDownloadUrl this fileData w))
  = [PresignedGetObject (bucket this) (default EmptyString (fileKey_of fileData))
       (24 * 60 * 60)].
Proof.
  intros Hk. unfold getPresignedDownloadUrl. rewrite Hk. run. by settle.
Qed.

Lemma getPresignedUploadUrl_calls fileData w :
  truthy (filename_of fileData) = true →
  client_calls (trace (getPresignedUploadUrl this fileData w))
  = [PresignedPutObject (bucket this) (default EmptyString (filename_of fileData))
       (15 * 60)].
Proof.
  intros Hk. unfold getPresignedUploadUrl. rewrite Hk. run. by settle.
Qed.

Lemma getAsBuffer_calls fileData w :
  truthy (fileKey_of fileData) = true →
  client_calls (trace (getAsBuffer this fileData w))
  = [GetObject (bucket this) (default EmptyString (fileKey_of fileData))].
Proof.
  intros Hk. unfold getAsBuffer. rewrite Hk. run. settle; try done.
  by destruct (collect _ _).
Qed.

Lemma getDownloadStream_calls fileData w :
  truthy (fileKey_of fileData) = true →
  client_calls (trace (getDownloadStream this fileData w))
  = [GetObject (bucket this) (default EmptyString (fileKey_of fileData))].
Proof.
  intros Hk. unfold getDownloadStream. rewrite Hk. run. by settle.
Qed.

Lemma upload_calls file w :
  client_calls (trace (upload rt this file w)) = []
  ∨ ∃ k data size metaData,
      client_calls (trace (upload rt this file w))
      = [PutObject (bucket this) k data size metaData].
Proof.
  unfold upload. destruct file as [file|]; [|by left].
  destruct (truthy (filename file)); cbn [negb]; [|by left].
  unfold Buffer_from. destruct (content file) as [data|]; run; [|by left].
  right. do 4 eexists. by settle.
Qed.

(** A property of client calls that holds of every call a request makes,
    given that it holds of the six object calls on the service's bucket. *)
Lemma invoke_calls (P : ClientCall → Prop) req w :
  (∀ k data size metaData, P (PutObject (bucket this) k data size metaData)) →
  (∀ k, P (RemoveObject (bucket this) k)) →
  (∀ k expiry, P (PresignedGetObject (bucket this) k expiry)) →
  (∀ k expiry, P (PresignedPutObject (bucket this) k expiry)) →
  (∀ k, P (GetObject (bucket this) k)) →
  Forall P (client_calls (trace (invoke rt this req w))).
Proof.
  intros Hput Hrem Hget Hpre Hobj.
  destruct req as [file|fileData|fileData|fileData|fileData|fileData];
    unfold invoke; rewrite fmap_trace.
  - destruct (upload_calls file w) as [->|(k & d & n & md & ->)]; auto.
  - rewrite delete_unfold.
    destruct (delete_files_run (files_of fileData) w) as ([rest Hp] & _).
    assert (Forall P (map (RemoveObject (bucket this))
                        (keys_before_missing (files_of fileData)))) as HP.
    { apply Forall_forall. intros c [k [-> _]]%list_elem_of_fmap. apply Hrem. }
    rewrite Hp in HP. by apply Forall_app in HP as [? _].
  - destruct (truthy (fileKey_of fileData)) eqn:Hk.
    + rewrite getPresignedDownloadUrl_calls by done. auto.
    + destruct (getPresignedDownloadUrl_refuses fileData w Hk) as [m ->]. constructor.
  - destruct (truthy (filename_of fileData)) eqn:Hk.
    + rewrite getPresignedUploadUrl_calls by done. auto.
    + destruct (getPresignedUploadUrl_refuses fileData w Hk) as [m ->]. constructor.
  - destruct (truthy (fileKey_of fileData)) eqn:Hk.
    + rewrite getAsBuffer_calls by done. auto.
    + destruct (getAsBuffer_refuses fileData w Hk) as [m ->]. constructor.
  - destruct (truthy (fileKey_of fileData)) eqn:Hk.
    + rewrite getDownloadStream_calls by done. auto.
    + destruct (getDownloadStream_refuses fileData w Hk) as [m ->]. constructor.
Qed.

(** *** Streams *)

Lemma collect_data chunks : ∀ later acc,
  collect (map SData chunks ++ later) acc = collect later (acc ++ chunks).
Proof.
  induction chunks as [|chunk chunks IH]; intros later acc; cbn.
  - by rewrite app_nil_r.
  - by rewrite IH, <- app_assoc.
Qed.

Lemma collect_ending chunks ending later :
  collect (map SData chunks ++ ending_event ending :: later) []
  = match ending with
    | Ended => Returned (Buffer_concat chunks)
    | Errored e => Threw e
    end.
Proof. rewrite collect_data. by destruct ending. Qed.

(** *** Construction *)

Lemma constructor_bucket options w s :
  outcome (constructor rt options w) = Returned s →
  bucket s = or_else (opt_bucket options) DEFAULT_BUCKET.
Proof.
  unfold constructor, parseEndpoint.
  destruct (URL_new rt _) as [error|parsed]; run;
    destruct (Client_new rt _) as [error'|c]; run; try done.
  all: by intros [= <-].
Qed.

Lemma initializeBucket_calls w :
  let b := bucket this in
  let policy := JSON_stringify rt (publicReadPolicy b) in
  let found := bucketExists (client this) b w in
  client_calls (trace (constructor_initialization rt this w))
  = match found.1 with
    | Returned true => [BucketExists b; SetBucketPolicy b policy]
    | Returned false =>
        BucketExists b :: MakeBucket b
        :: match (makeBucket (client this) b found.2).1 with
           | Returned _ => [SetBucketPolicy b policy]
           | _ => []
           end
    | _ => [BucketExists b]
    end.
Proof.
  cbn zeta. unfold constructor_initialization, initializeBucket. run.
  destruct (bucketExists _ _ w) as [[[|]|e|] w1]; run; try done.
  - by destruct (setBucketPolicy _ _ _ w1) as [[[]|e|] w2].
  - destruct (makeBucket _ _ w1) as [[[]|e|] w2]; run; try done.
    by destruct (setBucketPolicy _ _ _ w2) as [[[]|e|] w3].
Qed.

Lemma constructor_initialization_catches w e :
  outcome (constructor_initialization rt this w) ≠ Threw e.
Proof.
  unfold constructor_initialization, initializeBucket. run.
  destruct (bucketExists _ _ w) as [[[|]|e1|] w1]; run; try done.
  - by destruct (setBucketPolicy _ _ _ w1) as [[[]|e2|] w2].
  - destruct (makeBucket _ _ w1) as [[[]|e2|] w2]; run; try done.
    by destruct (setBucketPolicy _ _ _ w2) as [[[]|e3|] w3].
Qed.

(** A call that fails during the initialisation leaves its message in
    the last line of the log: a warning when only the policy of an
    existing bucket could not be set, the constructor's error line (after
    that of [initializeBucket]) otherwise. *)
Lemma constructor_initialization_logs w c e :
  Call c (Failed e) ∈ trace (constructor_initialization rt this w) →
  match (bucketExists (client this) (bucket this) w).1 with
  | Returned true =>
      last (trace (constructor_initialization rt this w))
      = Some (Log Warn ("Failed to update policy for existing bucket: "
                        +:+ message e))
  | _ =>
      ∃ t, trace (constructor_initialization rt this w)
           = t ++ [Log Error ("Error initializing bucket: " +:+ message e);
                   Log Error ("Failed to initialize MinIO bucket: " +:+ message e)]
  end.
Proof.
  unfold constructor_initialization, initializeBucket. run.
  destruct (bucketExists _ _ w) as [[[|]|e1|] w1]; run.
  - destruct (setBucketPolicy _ _ _ w1) as [[[]|e2|] w2]; run;
      intros H; pick H. by injection H as _ <-.
  - destruct (makeBucket _ _ w1) as [[[]|e2|] w2]; run.
    + destruct (setBucketPolicy _ _ _ w2) as [[[]|e3|] w3]; run;
        intros H; pick H. injection H as _ <-. by eexists [_; _; _; _].
    + intros H; pick H. injection H as _ <-. by eexists [_; _].
    + intros H; pick H.
  - intros H; pick H. injection H as _ <-. by eexists [_].
  - intros H; pick H.
Qed.

(** A run of the loop of [delete] that settles has called [removeObject]
    for exactly the elements before the first one without a key (for all
    of them when none lacks its key). *)
Lemma delete_files_settled files : ∀ w,
  outcome (delete_files this files w) ≠ Pending →
  client_calls (trace (delete_files this files w))
  = map (RemoveObject (bucket this)) (keys_before_missing files).
Proof.
  induction files as [|file files IH]; intros w; [done|].
  destruct (truthy (fileKey_of file)) eqn:Hk.
  - rewrite (delete_files_step _ _ _ Hk). cbn zeta.
    cbn [keys_before_missing map]. rewrite Hk.
    destruct (removeObject _ _ _ w) as [[[]|e|] w']; cbn [fst snd outcome trace];
      [| |done].
    all: intros Hs; by rewrite client_calls_call, client_calls_log, (IH w' Hs).
  - rewrite (delete_files_stop _ _ _ Hk). cbn [keys_before_missing]. by rewrite Hk.
Qed.

(** *** Upload *)

(** An upload that has a filename and content makes one call. *)
Lemma upload_puts file f data w :
  filename file = Some f →
  truthy (Some f) = true →
  content file = Some data →
  client_calls (trace (upload rt this (Some file) w))
  = [PutObject (bucket this)
       (name (path_parse rt f) +:+ "-" +:+ (ulid rt w).1 +:+ ext (path_parse rt f))
       (Buffer_from_binary data) (length (Buffer_from_binary data))
       [("Content-Type", mimeType file);
        ("x-amz-meta-original-filename", Some f);
        ("x-amz-acl", Some "public-read")]].
Proof.
  intros Hf Ht Hc. unfold upload, Buffer_from. rewrite Hf, Ht, Hc.
  cbn [negb from_option]. unfold id. run. by settle.
Qed.

Lemma upload_returned file w result :
  outcome (upload rt this (Some file) w) = Returned result →
  let f := default EmptyString (filename file) in
  let k := name (path_parse rt f) +:+ "-" +:+ (ulid rt w).1
           +:+ ext (path_parse rt f) in
  truthy (filename file) = true
  ∧ result = {| url := publicEndpoint this +:+ "/" +:+ bucket this +:+ "/" +:+ k;
                key := k |}.
Proof.
  unfold upload. destruct (truthy (filename file)); cbn [negb]; [|done].
  unfold Buffer_from. destruct (content file) as [data|]; run; [|done].
  settle; try done. by intros [= <-].
Qed.
End General.

Lemma length_append (a b : string) :
  String.length (a +:+ b) = (String.length a + String.length b)%nat.
Proof. induction a as [|c a IH]; simpl; [done | by f_equal]. Qed.

Lemma append_assoc (a b c : string) : (a +:+ b) +:+ c = a +:+ b +:+ c.
Proof.
  induction a as [|x a IH]; [done|].
  change (String x ((a +:+ b) +:+ c) = String x (a +:+ b +:+ c)). by rewrite IH.
Qed.

Lemma no_slash_append (a b : string) :
  no_slash (a +:+ b) = no_slash a && no_slash b.
Proof.
  induction a as [|c a IH]; simpl; [done|]. rewrite IH. by rewrite andb_assoc.
Qed.

End MinioProperties.

(** * The claims about the file provider *)

Module MinioClaims.
Import Minio InMemory MinioProperties.

Section Claims.
Context {W : Type}.
Variable rt : Runtime W.

(** C1, as amended.  A request whose required field is missing is
    refused with an [INVALID_DATA] error.  For every method but [delete]
    on an array, and for [delete] when the first element is the one
    without a key, the refusal comes first: nothing is logged, no client
    call is made and the world is untouched.  For an array, [delete]
    validates element by element: when it throws the [INVALID_DATA]
    error it has called [removeObject] for every element that precedes
    the first one without a key, in order, and for nothing else.  It
    ends in that error unless one of those removals never settles, and
    then it has called [removeObject] for the elements up to that one. *)
Theorem validation_precedes_client_calls
    (this : MinioFileProviderService W) (req : Request) (w : W) :
  missing_required req = true →
  let r := invoke rt this req w in
  (outcome r = Pending ∨ ∃ m, outcome r = Threw (MedusaError INVALID_DATA m))
  ∧ (∀ e, outcome r = Threw e →
          client_calls (trace r)
          = map (RemoveObject (bucket this)) (leading_keys req))
  ∧ client_calls (trace r)
      `prefix_of` map (RemoveObject (bucket this)) (leading_keys req)
  ∧ (leading_keys req = [] →
     ∃ m, r = mkRun (Threw (MedusaError INVALID_DATA m)) w [])
  ∧ (outcome r = Pending →
     ∃ k, last (trace r) = Some (Call (RemoveObject (bucket this) k) Hung)).
Proof.
  intros Hmiss r. subst r.
  assert (∀ r : Run W Event Response, refused r w →
    (outcome r = Pending ∨ ∃ m, outcome r = Threw (MedusaError INVALID_DATA m))
    ∧ (∀ e, outcome r = Threw e →
            client_calls (trace r) = map (RemoveObject (bucket this)) [])
    ∧ client_calls (trace r) `prefix_of` map (RemoveObject (bucket this)) []
    ∧ ([] = [] :> list string → ∃ m, r = mkRun (Threw (MedusaError INVALID_DATA m)) w [])
    ∧ (outcome r = Pending →
       ∃ k, last (trace r) = Some (Call (RemoveObject (bucket this) k) Hung)))
    as Hrefused.
  { intros r [m ->]. cbn. repeat split; try done; eauto. }
  destruct req as [file|fileData|fileData|fileData|fileData|fileData];
    try (cbn [missing_required] in Hmiss; apply negb_true_iff in Hmiss; []).
  - by apply Hrefused, fmap_refused, upload_refuses.
  - rewrite missing_required_delete in Hmiss. rewrite leading_keys_delete.
    unfold invoke. rewrite fmap_outcome, fmap_trace, delete_unfold.
    pose proof (delete_files_run this (files_of fileData) w) as (Hp & Ht & Hr & Hh).
    cbn zeta in *.
    split; [|split; [|split; [done|split]]].
    + destruct (outcome (delete_files this (files_of fileData) w)) as [[]|e|] eqn:Ho.
      * rewrite Hr in Hmiss; done.
      * destruct (Ht e eq_refl) as (-> & _ & _). right. by eexists.
      * by left.
    + intros e He.
      destruct (outcome (delete_files this (files_of fileData) w)) as [[]|e'|] eqn:Ho;
        try done.
      by destruct (Ht e' eq_refl) as (_ & _ & Hcalls).
    + intros Hnil.
      destruct (existsb_no_key_head _ Hmiss Hnil) as (f & rest & Hf & Hk).
      apply fmap_refused. rewrite delete_unfold, Hf, (delete_files_stop _ _ _ _ Hk).
      by eexists.
    + destruct (outcome (delete_files this (files_of fileData) w)); [done|done|].
      intros _. by apply Hh.
  - by apply Hrefused, fmap_refused, getPresignedDownloadUrl_refuses.
  - by apply Hrefused, fmap_refused, getPresignedUploadUrl_refuses.
  - by apply Hrefused, fmap_refused, getAsBuffer_refuses.
  - by apply Hrefused, fmap_refused, getDownloadStream_refuses.
Qed.

(** C2, as amended.  When a client call made for a request fails with
    error [e], [upload], the two presign methods, [getAsBuffer] and
    [getDownloadStream] log [e]'s message at error level and throw a
    [MedusaError] of type [UNEXPECTED_STATE] carrying it.  [delete] does
    not re-throw: it logs a warning with [e]'s message and moves on, and
    the only error it can end in is the [INVALID_DATA] refusal. *)
Theorem client_errors_are_translated
    (this : MinioFileProviderService W) (req : Request) (w : W)
    (c : ClientCall) (e : JsError) :
  let r := invoke rt this req w in
  Call c (Failed e) ∈ trace r →
  (∀ e', outcome r = Threw e' → is_MedusaError e' = true)
  ∧ match req with
    | Delete _ =>
        (∃ k before after,
           c = RemoveObject (bucket this) k
           ∧ trace r = before ++ Call c (Failed e)
               :: Log Warn ("Failed to delete file " +:+ k +:+ ": " +:+ message e)
               :: after)
        ∧ (∀ e', outcome r = Threw e' → e' = rejected)
    | _ => translated (failure_text req) e r
    end.
Proof.
  intros r. subst r.
  assert (∀ text (r : Run W Event Response), translated text e r →
            (∀ e', outcome r = Threw e' → is_MedusaError e' = true)
            ∧ translated text e r) as Hmedusa.
  { intros text r Hr. split; [|done]. destruct Hr as [-> _]. by intros e' [= <-]. }
  destruct req as [file|fileData|fileData|fileData|fileData|fileData];
    unfold invoke; cbn [failure_text].
  - rewrite fmap_trace. intros H.
    by eapply Hmedusa, fmap_translated, upload_translates.
  - rewrite fmap_trace, fmap_outcome, delete_unfold. intros H.
    assert (∀ e', match outcome (delete_files this (files_of fileData) w) with
                  | Returned _ => Returned Done
                  | Threw e0 => Threw e0
                  | Pending => Pending
                  end = Threw e' → e' = rejected) as Hrejected.
    { intros e' He'.
      destruct (delete_files_run this (files_of fileData) w) as (_ & Ht & _).
      destruct (outcome (delete_files this (files_of fileData) w)); try done.
      injection He' as ->. by destruct (Ht _ eq_refl). }
    split; [|split; [by apply delete_files_failed | done]].
    intros e' He'. by rewrite (Hrejected e' He').
  - rewrite fmap_trace. intros H.
    by eapply Hmedusa, fmap_translated, getPresignedDownloadUrl_translates.
  - rewrite fmap_trace. intros H.
    by eapply Hmedusa, fmap_translated, getPresignedUploadUrl_translates.
  - rewrite fmap_trace. intros H.
    by eapply Hmedusa, fmap_translated, getAsBuffer_translates.
  - rewrite fmap_trace. intros H.
    by eapply Hmedusa, fmap_translated, getDownloadStream_translates.
Qed.

(** C3.  When every input of [delete] has its [fileKey] and a
    [removeObject] call fails, [delete] catches the error and logs a
    warning naming the key and the error's message right after the
    call; it does not throw.  It returns normally: always for a single
    input, and for an array unless a later removal never settles. *)
Theorem delete_logs_and_returns
    (this : MinioFileProviderService W) (fileData : DeleteInput) (w : W)
    (c : ClientCall) (e : JsError) :
  let r := invoke rt this (Delete fileData) w in
  missing_required (Delete fileData) = false →
  Call c (Failed e) ∈ trace r →
  (∃ k before after,
     c = RemoveObject (bucket this) k
     ∧ trace r = before ++ Call c (Failed e)
         :: Log Warn ("Failed to delete file " +:+ k +:+ ": " +:+ message e)
         :: after)
  ∧ (∀ e', outcome r ≠ Threw e')
  ∧ (outcome r = Returned Done
     ∨ ∃ k, last (trace r) = Some (Call (RemoveObject (bucket this) k) Hung))
  ∧ (∀ file, fileData = OneFile file → outcome r = Returned Done).
Proof.
  intros r. subst r. rewrite missing_required_delete.
  unfold invoke. rewrite fmap_trace, fmap_outcome, delete_unfold.
  intros Hall Hin.
  destruct (delete_files_run this (files_of fileData) w) as (_ & Ht & _ & Hh).
  split; [by apply delete_files_failed|].
  split; [|split].
  - intros e' He'.
    destruct (outcome (delete_files this (files_of fileData) w)); try done.
    destruct (Ht _ eq_refl) as (_ & Hex & _). congruence.
  - destruct (outcome (delete_files this (files_of fileData) w)) as [[]|e'|].
    + by left.
    + destruct (Ht _ eq_refl) as (_ & Hex & _). congruence.
    + right. by apply Hh.
  - intros file ->. cbn [files_of existsb] in Hall, Hin |- *.
    unfold no_key in Hall. rewrite orb_false_r in Hall.
    apply negb_false_iff in Hall.
    by rewrite (delete_one_failed this file w c e Hall Hin).
Qed.


(** C5.  A presigned download URL is requested for exactly 24 hours
    (86400 seconds) and a presigned upload URL for exactly 15 minutes
    (900 seconds), whatever the input, as long as its key or filename is
    present; each request is the method's only client call. *)
Theorem presigned_urls_have_configured_expiry
    (this : MinioFileProviderService W)
    (download : option ProviderGetFileDTO)
    (upload : option ProviderGetPresignedUploadUrlDTO) (w : W) :
  truthy (fileKey_of download) = true →
  truthy (filename_of upload) = true →
  client_calls (trace (getPresignedDownloadUrl this download w))
  = [PresignedGetObject (bucket this)
       (default EmptyString (fileKey_of download)) 86400]
  ∧ client_calls (trace (getPresignedUploadUrl this upload w))
    = [PresignedPutObject (bucket this)
         (default EmptyString (filename_of upload)) 900].
Proof.
  intros Hd Hu.
  by rewrite getPresignedDownloadUrl_calls, getPresignedUploadUrl_calls.
Qed.

(** C6, as amended.  The six file methods never check for, create or
    configure the bucket.  Construction does: the promise the
    constructor starts asks the client whether the bucket exists,
    creates it when the answer is no, and sets the public-read policy on
    it (after a successful creation, or at once on an existing bucket).
    Whatever fails there is logged and never thrown: the message of the
    failed call is in the last line of the log, a warning when only the
    policy of an existing bucket could not be set and an error line of
    the constructor after one of [initializeBucket] otherwise. *)
Theorem bucket_is_prepared_at_construction_only
    (this : MinioFileProviderService W) (w : W) :
  let b := bucket this in
  let policy := JSON_stringify rt (publicReadPolicy b) in
  let found := bucketExists (client this) b w in
  let r := constructor_initialization rt this w in
  (∀ req w', Forall (λ c, is_bucket_admin c = false)
               (client_calls (trace (invoke rt this req w'))))
  ∧ (∀ e, outcome r ≠ Threw e)
  ∧ client_calls (trace r)
    = match found.1 with
      | Returned true => [BucketExists b; SetBucketPolicy b policy]
      | Returned false =>
          BucketExists b :: MakeBucket b
          :: match (makeBucket (client this) b found.2).1 with
             | Returned _ => [SetBucketPolicy b policy]
             | _ => []
             end
      | _ => [BucketExists b]
      end
  ∧ (∀ c e, Call c (Failed e) ∈ trace r →
       match found.1 with
       | Returned true =>
           last (trace r)
           = Some (Log Warn ("Failed to update policy for existing bucket: "
                             +:+ message e))
       | _ =>
           ∃ t, trace r
                = t ++ [Log Error ("Error initializing bucket: " +:+ message e);
                        Log Error ("Failed to initialize MinIO bucket: "
                                   +:+ message e)]
       end).
Proof.
  cbn zeta. split; [|split; [|split]].
  - intros req w'. by apply invoke_calls.
  - intros e. apply constructor_initialization_catches.
  - apply initializeBucket_calls.
  - intros c e. apply constructor_initialization_logs.
Qed.

(** C7.  For an input with a [fileKey], [getAsBuffer] makes exactly one
    client call, [getObject] on that key.  If the stream it yields
    emits [chunks] and then ends, the result is their concatenation in
    arrival order; if it emits an error instead, [getAsBuffer] throws a
    [MedusaError] and returns no buffer. *)
Theorem getAsBuffer_passes_the_stream_through
    (this : MinioFileProviderService W) (fileData : option ProviderGetFileDTO)
    (w w' : W) (chunks : list Buffer) (ending : Ending) (later : Readable) :
  let k := default EmptyString (fileKey_of fileData) in
  let r := getAsBuffer this fileData w in
  truthy (fileKey_of fileData) = true →
  getObject (client this) (bucket this) k w
  = (Returned (map SData chunks ++ ending_event ending :: later), w') →
  client_calls (trace r) = [GetObject (bucket this) k]
  ∧ outcome r
    = match ending with
      | Ended => Returned (concat chunks)
      | Errored e =>
          Threw (MedusaError UNEXPECTED_STATE
                   ("Failed to get buffer: " +:+ message e))
      end.
Proof.
  intros k r Hk Hget. subst k r. split; [by apply getAsBuffer_calls|].
  unfold getAsBuffer. rewrite Hk. run. rewrite Hget.
  rewrite collect_ending. by destruct ending.
Qed.

(** C8.  The bucket of a constructed service is [options.bucket] when
    that is a non-empty string and ['medusa-media'] otherwise, and every
    file method passes exactly this bucket to the client: no client call
    of any request names another bucket, and each method does make its
    call on it.  [upload] with a filename and content calls [putObject]
    on it; [delete], once it settles, has called [removeObject] on it for
    every input before the first one without a key (for every input when
    none lacks its key), and when it hangs it hangs in such a call; the
    two presign methods, [getAsBuffer] and [getDownloadStream], given
    their key or filename, make their one call on it. *)
Theorem bucket_is_fixed_at_construction
    (options : MinioFileProviderOptions) (w : W)
    (this : MinioFileProviderService W) :
  outcome (constructor rt options w) = Returned this →
  bucket this = (if truthy (opt_bucket options)
                 then default EmptyString (opt_bucket options)
                 else "medusa-media")
  ∧ ∀ w',
      (∀ req, Forall (λ c, call_bucket c = bucket this)
                (client_calls (trace (invoke rt this req w'))))
      ∧ (∀ file f data,
           filename file = Some f → truthy (Some f) = true →
           content file = Some data →
           client_calls (trace (upload rt this (Some file) w'))
           = [PutObject (bucket this)
                (name (path_parse rt f) +:+ "-" +:+ (ulid rt w').1
                 +:+ ext (path_parse rt f))
                (Buffer_from_binary data) (length (Buffer_from_binary data))
                [("Content-Type", mimeType file);
                 ("x-amz-meta-original-filename", Some f);
                 ("x-amz-acl", Some "public-read")]])
      ∧ (∀ fileData,
           (outcome (delete this fileData w') ≠ Pending →
            client_calls (trace (delete this fileData w'))
            = map (RemoveObject (bucket this)) (leading_keys (Delete fileData)))
           ∧ (outcome (delete this fileData w') = Pending →
              ∃ k, last (trace (delete this fileData w'))
                   = Some (Call (RemoveObject (bucket this) k) Hung)))
      ∧ (∀ fileData,
           truthy (fileKey_of fileData) = true →
           let k := default EmptyString (fileKey_of fileData) in
           client_calls (trace (getPresignedDownloadUrl this fileData w'))
           = [PresignedGetObject (bucket this) k 86400]
           ∧ client_calls (trace (getAsBuffer this fileData w'))
             = [GetObject (bucket this) k]
           ∧ client_calls (trace (getDownloadStream this fileData w'))
             = [GetObject (bucket this) k])
      ∧ (∀ fileData,
           truthy (filename_of fileData) = true →
           client_calls (trace (getPresignedUploadUrl this fileData w'))
           = [PresignedPutObject (bucket this)
                (default EmptyString (filename_of fileData)) 900]).
Proof.
  intros Hnew. split.
  - rewrite (constructor_bucket _ _ _ _ Hnew). apply truthy_or_else.
  - intros w'. split; [|split; [|split; [|split]]].
    + intros req. by apply invoke_calls.
    + intros file f data. apply upload_puts.
    + intros fileData. rewrite leading_keys_delete, delete_unfold. split.
      * apply delete_files_settled.
      * by apply delete_files_run.
    + intros fileData Hk. cbn zeta.
      by rewrite getPresignedDownloadUrl_calls, getAsBuffer_calls,
        getDownloadStream_calls.
    + intros fileData Hk. by rewrite getPresignedUploadUrl_calls.
Qed.

(** C9.  A successful upload of a file named [f] returns the key
    [name-u.ext], where [name] and [ext] are what [path.parse] gives
    for [f] and [u] is the ULID generated during this call, and the url
    [publicEndpoint/bucket/key] for the same key.  So the key ends with
    the original extension and differs from the original base name; it
    differs from [f] itself as soon as [path.parse] and [ulid] behave
    as documented (no slash in a name, an extension or a ULID; a path
    without slashes is its own base name). *)
Theorem upload_key_and_url
    (this : MinioFileProviderService W) (file : ProviderUploadFileDTO)
    (f : string) (w : W) (result : ProviderFileResultDTO) :
  let parsed := path_parse rt f in
  let u := (ulid rt w).1 in
  filename file = Some f →
  outcome (upload rt this (Some file) w) = Returned result →
  key result = name parsed +:+ "-" +:+ u +:+ ext parsed
  ∧ url result = publicEndpoint this +:+ "/" +:+ bucket this +:+ "/" +:+ key result
  ∧ (∃ stem, key result = stem +:+ ext parsed)
  ∧ key result ≠ name parsed +:+ ext parsed
  ∧ (no_slash (name parsed) = true → no_slash (ext parsed) = true →
     no_slash u = true →
     (no_slash f = true → name parsed +:+ ext parsed = f) →
     key result ≠ f).
Proof.
  intros parsed u Hf Hup. subst parsed u.
  destruct (upload_returned _ _ _ _ _ Hup) as [_ ->]. rewrite Hf.
  cbn [from_option key url]. unfold id. set (p := path_parse rt f). set (u := (ulid rt w).1).
  assert (String.length (name p +:+ "-" +:+ u +:+ ext p)
          ≠ String.length (name p +:+ ext p)) as Hlen.
  { rewrite !length_append. cbn [String.length]. lia. }
  split; [done|]. split; [done|]. split; [|split].
  - exists (name p +:+ "-" +:+ u). by rewrite !append_assoc.
  - intros Heq. by rewrite Heq in Hlen.
  - intros Hname Hext Hu Hbase Heq.
    destruct (no_slash f) eqn:Hslash.
    + rewrite <- (Hbase eq_refl) in Heq. by rewrite Heq in Hlen.
    + rewrite <- Heq, !no_slash_append, Hname, Hext, Hu in Hslash. done.
Qed.
End Claims.


(** ** Executions on the in-memory store *)

(** C1, as first stated, fails: given an array whose second element has
    no key, [delete] ends in the [INVALID_DATA] error only after it has
    called [removeObject] for the first element. *)
Lemma delete_array_removes_before_refusing :
  let r := invoke mem_runtime mem_service (Delete array_with_gap) one_object_store in
  missing_required (Delete array_with_gap) = true
  ∧ outcome r = Threw (MedusaError INVALID_DATA "No file key provided")
  ∧ client_calls (trace r) = [RemoveObject "medusa-media" "logo.png"]
  ∧ client_calls (trace r) ≠ [].
Proof. vm_compute. repeat split; done. Qed.

Lemma validation_precedes_client_calls_witness :
  let req := Delete array_with_gap in
  let r := invoke mem_runtime mem_service req one_object_store in
  missing_required req = true
  ∧ outcome r = Threw (MedusaError INVALID_DATA "No file key provided")
  ∧ client_calls (trace r)
    = map (RemoveObject (bucket mem_service)) (leading_keys req)
  ∧ leading_keys req = ["logo.png"].
Proof.
  assert (outcome (invoke mem_runtime mem_service (Delete array_with_gap)
                     one_object_store)
          = Threw (MedusaError INVALID_DATA "No file key provided"))
    as Hthrew by (vm_compute; reflexivity).
  split; [reflexivity|]. split; [exact Hthrew|]. split; [|reflexivity].
  destruct (validation_precedes_client_calls mem_runtime mem_service
              (Delete array_with_gap) one_object_store eq_refl)
    as (_ & Hcalls & _).
  exact (Hcalls _ Hthrew).
Defined.

(** C2, as first stated, fails: [removeObject] fails on an unknown key,
    and [delete] neither re-throws the error nor throws anything else. *)
Lemma delete_swallows_client_error :
  let r := invoke mem_runtime mem_service (Delete (OneFile ghost)) one_object_store in
  Call (RemoveObject "medusa-media" "ghost.png") (Failed no_such_key) ∈ trace r
  ∧ outcome r = Returned Done
  ∧ ∀ e, outcome r ≠ Threw e.
Proof. vm_compute. repeat split; [left | done]. Qed.

Lemma client_errors_are_translated_witness :
  let r := invoke mem_runtime mem_service (GetAsBuffer ghost) one_object_store in
  Call (GetObject "medusa-media" "ghost.png") (Failed no_such_key) ∈ trace r
  ∧ translated "Failed to get buffer: " no_such_key r.
Proof.
  assert (Call (GetObject "medusa-media" "ghost.png") (Failed no_such_key)
          ∈ trace (invoke mem_runtime mem_service (GetAsBuffer ghost) one_object_store))
    as Hin by (vm_compute; left).
  split; [exact Hin|].
  exact (proj2 (client_errors_are_translated mem_runtime mem_service
                  (GetAsBuffer ghost) one_object_store _ _ Hin)).
Defined.

Lemma delete_logs_and_returns_witness :
  let r := invoke mem_runtime mem_service (Delete (OneFile ghost)) one_object_store in
  outcome r = Returned Done
  ∧ ∃ before after,
      trace r = before
        ++ Call (RemoveObject "medusa-media" "ghost.png") (Failed no_such_key)
        :: Log Warn "Failed to delete file ghost.png: The specified key does not exist."
        :: after.
Proof.
  assert (Call (RemoveObject "medusa-media" "ghost.png") (Failed no_such_key)
          ∈ trace (invoke mem_runtime mem_service (Delete (OneFile ghost))
                     one_object_store))
    as Hin by (vm_compute; left).
  destruct (delete_logs_and_returns mem_runtime mem_service (OneFile ghost)
              one_object_store _ _ eq_refl Hin)
    as ((k & before & after & Hk & Htrace) & _ & _ & Hone).
  split; [by apply (Hone ghost)|].
  exists before, after. injection Hk as <-. exact Htrace.
Defined.



Lemma presigned_urls_have_configured_expiry_witness :
  client_calls (trace (getPresignedDownloadUrl mem_service logo one_object_store))
  = [PresignedGetObject "medusa-media" "logo.png" 86400]
  ∧ client_calls
      (trace (getPresignedUploadUrl mem_service
                (Some {| upload_filename := Some "new.png" |}) one_object_store))
    = [PresignedPutObject "medusa-media" "new.png" 900].
Proof.
  exact (presigned_urls_have_configured_expiry mem_service logo
           (Some {| upload_filename := Some "new.png" |}) one_object_store
           eq_refl eq_refl).
Defined.

(** C6, as first stated, fails: on a store without the bucket,
    construction creates the bucket and sets its policy. *)
Lemma construction_creates_the_bucket :
  let r := constructor_initialization mem_runtime mem_service empty_store in
  client_calls (trace r)
  = [BucketExists "medusa-media"; MakeBucket "medusa-media";
     SetBucketPolicy "medusa-media"
       (mem_stringify (publicReadPolicy "medusa-media"))]
  ∧ (bucketExists mem_client "medusa-media" empty_store).1 = Returned false
  ∧ (bucketExists mem_client "medusa-media" (final r)).1 = Returned true.
Proof. vm_compute. repeat split; done. Qed.

Lemma getAsBuffer_passes_the_stream_through_witness :
  let r := getAsBuffer mem_service logo one_object_store in
  client_calls (trace r) = [GetObject "medusa-media" "logo.png"]
  ∧ outcome r = Returned (Buffer_from_binary "PNG").
Proof.
  exact (getAsBuffer_passes_the_stream_through mem_service logo
           one_object_store one_object_store [Buffer_from_binary "PNG"] Ended []
           eq_refl eq_refl).
Defined.

Lemma bucket_is_fixed_at_construction_witness :
  outcome (constructor mem_runtime uploads_options empty_store)
  = Returned uploads_service
  ∧ bucket uploads_service = "uploads"
  ∧ client_calls (trace (upload mem_runtime uploads_service (Some cat_picture)
                           uploads_store))
    = [PutObject "uploads" "cat-01JBCDEFGHJKMNPQRSTVWX0007.png"
         (Buffer_from_binary "abc") 3
         [("Content-Type", Some "image/png");
          ("x-amz-meta-original-filename", Some "pets/cat.png");
          ("x-amz-acl", Some "public-read")]]
  ∧ client_calls (trace (delete uploads_service (FileArray [ghost; logo])
                           uploads_store))
    = [RemoveObject "uploads" "ghost.png"; RemoveObject "uploads" "logo.png"]
  ∧ client_calls (trace (getAsBuffer uploads_service logo uploads_store))
    = [GetObject "uploads" "logo.png"]
  ∧ client_calls
      (trace (getPresignedUploadUrl uploads_service
                (Some {| upload_filename := Some "new.png" |}) uploads_store))
    = [PresignedPutObject "uploads" "new.png" 900].
Proof.
  assert (outcome (constructor mem_runtime uploads_options empty_store)
          = Returned uploads_service) as Hnew by (vm_compute; reflexivity).
  split; [exact Hnew|].
  destruct (bucket_is_fixed_at_construction mem_runtime uploads_options
              empty_store uploads_service Hnew) as (Hbucket & Hcalls).
  split; [exact Hbucket|].
  destruct (Hcalls uploads_store) as (_ & Hupload & Hdelete & Hread & Hpresign).
  split; [exact (Hupload cat_picture "pets/cat.png" "abc" eq_refl eq_refl eq_refl)|].
  split.
  { apply (Hdelete (FileArray [ghost; logo])). vm_compute. discriminate. }
  split; [exact (proj1 (proj2 (Hread logo eq_refl)))|].
  exact (Hpresign (Some {| upload_filename := Some "new.png" |}) eq_refl).
Defined.

Lemma bucket_is_prepared_at_construction_only_witness :
  let r := constructor_initialization mem_runtime readonly_service empty_store in
  outcome r = Returned tt
  ∧ Call (MakeBucket "medusa-media") (Failed access_denied) ∈ trace r
  ∧ ∃ t, trace r
         = t ++ [Log Error "Error initializing bucket: Access Denied";
                 Log Error "Failed to initialize MinIO bucket: Access Denied"].
Proof.
  assert (Call (MakeBucket "medusa-media") (Failed access_denied)
          ∈ trace (constructor_initialization mem_runtime readonly_service
                     empty_store))
    as Hin by (vm_compute; right; left).
  split; [vm_compute; reflexivity|]. split; [exact Hin|].
  destruct (bucket_is_prepared_at_construction_only mem_runtime readonly_service
              empty_store) as (_ & _ & _ & Hlogs).
  exact (Hlogs _ _ Hin).
Defined.

Lemma upload_key_and_url_witness :
  let r := upload mem_runtime mem_service (Some cat_picture) one_object_store in
  ∃ result,
    outcome r = Returned result
    ∧ key result = "cat-01JBCDEFGHJKMNPQRSTVWX0007.png"
    ∧ url result
      = "https://minio.local:9000/medusa-media/cat-01JBCDEFGHJKMNPQRSTVWX0007.png"
    ∧ key result ≠ "pets/cat.png".
Proof.
  set (result := {| url := "https://minio.local:9000/medusa-media/cat-01JBCDEFGHJKMNPQRSTVWX0007.png";
                    key := "cat-01JBCDEFGHJKMNPQRSTVWX0007.png" |}).
  assert (outcome (upload mem_runtime mem_service (Some cat_picture) one_object_store)
          = Returned result) as Hup by (vm_compute; reflexivity).
  exists result. split; [exact Hup|].
  destruct (upload_key_and_url mem_runtime mem_service cat_picture "pets/cat.png"
              one_object_store result eq_refl Hup)
    as (Hkey & Hurl & _ & _ & Hfresh).
  split; [reflexivity|]. split; [reflexivity|].
  apply Hfresh; try reflexivity. intros Hslash. discriminate Hslash.
Defined.

End MinioClaims.

(** * The claim about the storefront *)

Module StorefrontClaims.
Import Storefront.

Section Component.
Context {W : Type}.
Variable data : Data W.

(** Logging the collections returns and changes nothing but the log. *)
Lemma log_collections_run cols : ∀ i (w : W),
  ∃ t, log_collections i cols w = mkRun (Returned tt) w t.
Proof.
  induction cols as [|col cols IH]; intros i w; cbn [log_collections].
  - by eexists.
  - unfold mbind, M_bind, bind, emit, continue.
    destruct (IH (S i) w) as [t ->]. by eexists.
Qed.

(** C10.  Once both fetches have returned, [FeaturedProducts] returns
    [null] when the collections are absent or no region was found for
    the country code; otherwise it returns a list with one item per
    fetched collection, in the fetched order, each item holding the
    product rail of its collection for that region. *)
Theorem FeaturedProducts_renders
    (countryCode : string) (w w1 w2 : W)
    (fetched : option (list StoreCollection)) (region : option StoreRegion) :
  listCollections data [("limit", "3"); ("fields", "*products")] w
  = (Returned {| collections := fetched |}, w1) →
  getRegion data countryCode w1 = (Returned region, w2) →
  let r := FeaturedProducts data countryCode w in
  (fetched = None ∨ region = None → outcome r = Returned None)
  ∧ ∀ cols reg, fetched = Some cols → region = Some reg →
      ∃ className items,
        outcome r = Returned (Some (ul className items))
        ∧ length items = length cols
        ∧ ∀ i col, cols !! i = Some col →
            items !! i = Some (li (collection_id col) [ProductRail col reg]).
Proof.
  intros Hlist Hregion r. subst r. unfold FeaturedProducts.
  unfold mbind, M_bind, mret, M_ret, bind, perform, emit, continue, ret.
  rewrite Hlist, Hregion. cbn [collections].
  split.
  - intros Habsent.
    destruct fetched as [[|col cols]|]; lazy beta iota;
      try (destruct (log_collections_run (col :: cols) 0%nat w2) as [t ->]);
      destruct region as [reg|]; try done.
    all: by destruct Habsent.
  - intros cols reg -> ->.
    eexists _, (map (λ col, li (collection_id col) [ProductRail col reg]) cols).
    split; [|split; [by rewrite length_map|]].
    + destruct cols as [|col cols]; lazy beta iota;
        try (destruct (log_collections_run (col :: cols) 0%nat w2) as [t ->]);
        reflexivity.
    + intros i col Hcol. by rewrite list_lookup_fmap, Hcol.
Qed.
End Component.

Lemma FeaturedProducts_renders_witness :
  outcome (FeaturedProducts fixed_data "us" tt) = Returned None
  ∧ ∃ className items,
      outcome (FeaturedProducts fixed_data "dk" tt)
      = Returned (Some (ul className items))
      ∧ length items = 2%nat
      ∧ items !! 1%nat = Some (li "pcol_2" [ProductRail winter europe]).
Proof.
  split.
  - apply (FeaturedProducts_renders fixed_data "us" tt tt tt
             (Some [summer; winter]) None eq_refl eq_refl).
    by right.
  - destruct (FeaturedProducts_renders fixed_data "dk" tt tt tt
                (Some [summer; winter]) (Some europe) eq_refl eq_refl)
      as [_ Hrender].
    destruct (Hrender [summer; winter] europe eq_refl eq_refl)
      as (className & items & Hout & Hlen & Hitems).
    exists className, items. split; [exact Hout|]. split; [exact Hlen|].
    exact (Hitems 1%nat winter eq_refl).
Defined.

End StorefrontClaims.

(** * Further properties of the file provider *)

Module MinioExtras.
Import Minio InMemory MinioProperties.

(** ** Validation of the options *)

Lemma check_required_run (options : gmap string string) (fields : list string) :
  (check_required options fields = Returned tt
   ∧ Forall (λ field, truthy (options !! field) = true) fields)
  ∨ ∃ before field after,
      fields = before ++ field :: after
      ∧ Forall (λ f, truthy (options !! f) = true) before
      ∧ truthy (options !! field) = false
      ∧ check_required options fields
        = Threw (MedusaError INVALID_DATA
                   (field +:+ " is required in the provider's options")).
Proof.
  induction fields as [|field rest IH]; cbn [check_required].
  - left. by split.
  - destruct (truthy (options !! field)) eqn:Hf; cbn [negb].
    + destruct IH as [[-> Hall] | (before & f & after & -> & Hb & Hfalse & ->)].
      * left. split; [done|]. by constructor.
      * right. exists (field :: before), f, after. repeat split; try done.
        by constructor.
    + right. by exists [], field, rest.
Qed.

(** X1.  [validateOptions] accepts the options exactly when [endPoint],
    [accessKey] and [secretKey] are all present and non-empty. *)
Theorem validateOptions_accepts (options : gmap string string) :
  validateOptions options = Returned tt
  ↔ truthy (options !! "endPoint") = true
    ∧ truthy (options !! "accessKey") = true
    ∧ truthy (options !! "secretKey") = true.
Proof.
  unfold validateOptions, requiredFields. cbn [check_required].
  destruct (truthy (options !! "endPoint")),
    (truthy (options !! "accessKey")),
    (truthy (options !! "secretKey")); cbn [negb]; split; try done.
  all: by intros (? & ? & ?).
Qed.

(** X2.  When [validateOptions] rejects the options, it throws an
    [INVALID_DATA] error that names the first of [endPoint], [accessKey],
    [secretKey] (in this order) that is missing or empty; later missing
    fields are not reported. *)
Theorem validateOptions_names_first_missing
    (options : gmap string string) (e : JsError) :
  validateOptions options = Threw e →
  ∃ before field after,
    requiredFields = before ++ field :: after
    ∧ Forall (λ f, truthy (options !! f) = true) before
    ∧ truthy (options !! field) = false
    ∧ e = MedusaError INVALID_DATA
            (field +:+ " is required in the provider's options").
Proof.
  unfold validateOptions. intros He.
  destruct (check_required_run options requiredFields)
    as [[Hok _] | (before & field & after & Hsplit & Hb & Hf & Hthrew)].
  - congruence.
  - exists before, field, after. repeat split; try done. congruence.
Qed.

(** X3.  Only the three required fields matter to [validateOptions]:
    setting or removing any other option ([bucket], [publicEndpoint],
    ...) does not change its verdict. *)
Theorem validateOptions_ignores_other_options
    (options : gmap string string) (k v : string) :
  k ∉ requiredFields →
  validateOptions (<[k := v]> options) = validateOptions options
  ∧ validateOptions (base.delete k options) = validateOptions options.
Proof.
  intros Hk. unfold validateOptions, requiredFields in *. cbn [check_required].
  assert (k ≠ "endPoint" ∧ k ≠ "accessKey" ∧ k ≠ "secretKey") as (H1 & H2 & H3).
  { repeat split; intros ->; apply Hk; set_solver. }
  by rewrite !lookup_insert_ne, !lookup_delete_ne.
Qed.

(** ** Parsing the endpoint and constructing the service *)

Lemma append_cons (c : ascii) (a b : string) :
  String c a +:+ b = String c (a +:+ b).
Proof. reflexivity. Qed.

Lemma split_colon_whole (h : string) :
  no_colon h = true → split_colon h = [h].
Proof.
  induction h as [|c h IH]; [done|]. cbn [no_colon split_colon].
  intros [Hc Hh]%andb_true_iff. apply negb_true_iff in Hc. rewrite Hc.
  by rewrite (IH Hh).
Qed.

Lemma split_colon_first (h rest : string) :
  no_colon h = true → split_colon (h +:+ ":" +:+ rest) = h :: split_colon rest.
Proof.
  induction h as [|c h IH]; [done|]. cbn [no_colon].
  intros [Hc Hh]%andb_true_iff. apply negb_true_iff in Hc.
  rewrite append_cons. cbn [split_colon]. rewrite Hc. by rewrite (IH Hh).
Qed.

Section Construction.
Context {W : Type}.
Variable rt : Runtime W.

Lemma parseEndpoint_parsed endpoint (w : W) url :
  URL_new rt (urlString endpoint) = inr url →
  parseEndpoint rt endpoint w
  = mkRun (Returned
             {| protocol := url_protocol url;
                hostname := url_hostname url;
                port := if truthy (Some (url_port url))
                        then parseInt10 rt (url_port url)
                        else if String.eqb (url_protocol url) "https:"
                             then JsInt 443 else JsInt 80;
                host := url_host url |}) w [].
Proof.
  intros Hurl. unfold parseEndpoint. fold (urlString endpoint). by rewrite Hurl.
Qed.

Lemma parseEndpoint_fallen_back endpoint (w : W) error :
  URL_new rt (urlString endpoint) = inl error →
  let parts := split_colon endpoint in
  let h := default EmptyString (head parts) in
  let p := match parts with
           | _ :: p1 :: _ => parseInt10 rt p1
           | _ => JsInt 443
           end in
  parseEndpoint rt endpoint w
  = mkRun (Returned
             {| protocol := "https:";
                hostname := h;
                port := p;
                host := if number_eqb p (JsInt 443) then h
                        else h +:+ ":"
                             +:+ number_toString (big_toString rt) p |}) w
      [Log Warn ("Failed to parse endpoint URL, using fallback: "
                 +:+ message error)].
Proof.
  intros Hurl. cbn zeta. unfold parseEndpoint. fold (urlString endpoint).
  rewrite Hurl. by run.
Qed.

(** X4.  [parseEndpoint] always returns: an endpoint that [new URL]
    rejects is not an error but is parsed by the fallback, after exactly
    one warning that carries the message of the rejection.  It makes no
    client call and leaves the world as it is. *)
Theorem parseEndpoint_always_returns (endpoint : string) (w : W) :
  ∃ parsed,
    parseEndpoint rt endpoint w
    = mkRun (Returned parsed) w
        match URL_new rt (urlString endpoint) with
        | inr _ => []
        | inl error =>
            [Log Warn ("Failed to parse endpoint URL, using fallback: "
                       +:+ message error)]
        end.
Proof.
  destruct (URL_new rt (urlString endpoint)) as [error|url] eqn:Hurl.
  - eexists. by apply parseEndpoint_fallen_back.
  - eexists. by apply parseEndpoint_parsed.
Qed.

(** X5.  An endpoint written without a scheme is read as an [https]
    endpoint: when [new URL] accepts it with [https://] in front,
    [parseEndpoint] gives the same result as for the endpoint written
    with that scheme. *)
Theorem parseEndpoint_defaults_to_https (endpoint : string) (w : W) (url : URL) :
  String.prefix "http://" endpoint = false →
  String.prefix "https://" endpoint = false →
  URL_new rt ("https://" +:+ endpoint) = inr url →
  parseEndpoint rt endpoint w = parseEndpoint rt ("https://" +:+ endpoint) w.
Proof.
  intros Hhttp Hhttps Hurl.
  assert (urlString endpoint = "https://" +:+ endpoint) as Hbare.
  { unfold urlString. by rewrite Hhttp, Hhttps. }
  assert (urlString ("https://" +:+ endpoint) = "https://" +:+ endpoint) as Hfull.
  { unfold urlString. by destruct endpoint. }
  rewrite (parseEndpoint_parsed endpoint w url) by by rewrite Hbare.
  by rewrite (parseEndpoint_parsed ("https://" +:+ endpoint) w url)
    by by rewrite Hfull.
Qed.

(** X6.  The fallback of [parseEndpoint], taken when [new URL] rejects
    the endpoint, always answers with protocol [https:].  For an endpoint
    without a colon the host name is the whole endpoint and the port is
    443; for [host:port] the port is [parseInt(port)], and the [host]
    field omits the port exactly when it is 443; otherwise it ends with
    the port as [Number::toString] prints it ([NaN] for a port that is
    not a number, exponent form from 1e21 up). *)
Theorem parseEndpoint_fallback
    (endpoint : string) (w : W) (error : JsError) (parsed : ParsedEndpoint) :
  URL_new rt (urlString endpoint) = inl error →
  outcome (parseEndpoint rt endpoint w) = Returned parsed →
  protocol parsed = "https:"
  ∧ (no_colon endpoint = true →
     hostname parsed = endpoint ∧ port parsed = JsInt 443 ∧ host parsed = endpoint)
  ∧ (∀ h p, endpoint = h +:+ ":" +:+ p → no_colon h = true → no_colon p = true →
       hostname parsed = h
       ∧ port parsed = parseInt10 rt p
       ∧ host parsed = if number_eqb (parseInt10 rt p) (JsInt 443) then h
                       else h +:+ ":"
                            +:+ number_toString (big_toString rt) (parseInt10 rt p)).
Proof.
  intros Hurl. rewrite (parseEndpoint_fallen_back endpoint w error Hurl).
  cbn [outcome]. intros [= <-]. cbn [protocol hostname port host].
  split; [done|]. split.
  - intros Hno. by rewrite (split_colon_whole _ Hno).
  - intros h p -> Hh Hp.
    by rewrite (split_colon_first _ _ Hh), (split_colon_whole _ Hp).
Qed.

Lemma constructor_run (options : MinioFileProviderOptions) (w : W) :
  ∃ parsed t,
    parseEndpoint rt (endPoint options) w = mkRun (Returned parsed) w t
    ∧ let b := or_else (opt_bucket options) DEFAULT_BUCKET in
      let pub := or_else (opt_publicEndpoint options)
                   (protocol parsed +:+ "//" +:+ host parsed) in
      constructor rt options w
      = mkRun match Client_new rt (clientOptions parsed options) with
              | inr c => Returned {| config_ := options; client := c;
                                     bucket := b; publicEndpoint := pub |}
              | inl e => Threw e
              end w
          (t ++ [Log Info ("MinIO service initialized with bucket: " +:+ b);
                 Log Info ("MinIO internal endpoint: " +:+ endPoint options);
                 Log Info ("MinIO public endpoint: " +:+ pub)]).
Proof.
  destruct (parseEndpoint_always_returns (endPoint options) w) as [parsed Hp].
  eexists parsed, _. split; [exact Hp|]. cbn zeta.
  unfold constructor. run. cbn [endPoint accessKey secretKey opt_bucket
                                opt_publicEndpoint].
  rewrite Hp. unfold clientOptions.
  destruct options as [ep ak sk ob op]. cbn [endPoint accessKey secretKey
                                           opt_bucket opt_publicEndpoint].
  by destruct (Client_new rt _) as [e|c]; rewrite <- ?app_assoc.
Qed.

(** X7.  The constructor makes no client call, leaves the world as it is
    and never hangs.  It throws exactly when [new Client] throws, and
    then throws that very error, not wrapped in a [MedusaError];
    otherwise it returns a service around the client [new Client] gave. *)
Theorem constructor_throws_what_new_Client_throws
    (options : MinioFileProviderOptions) (w : W) :
  let r := constructor rt options w in
  final r = w
  ∧ client_calls (trace r) = []
  ∧ ∃ parsed,
      outcome (parseEndpoint rt (endPoint options) w) = Returned parsed
      ∧ match Client_new rt (clientOptions parsed options) with
        | inl e => outcome r = Threw e
        | inr c => ∃ this, outcome r = Returned this ∧ client this = c
        end.
Proof.
  cbn zeta. destruct (constructor_run options w) as (parsed & t & Hp & ->).
  cbn [final trace outcome]. split; [done|]. split.
  - generalize (parseEndpoint_always_returns (endPoint options) w).
    rewrite Hp. intros [parsed' [= _ ->]].
    by destruct (URL_new rt _).
  - exists parsed. rewrite Hp. split; [done|].
    destruct (Client_new rt _) as [e|c]; [done|]. by eexists.
Qed.

(** X8.  A constructed service keeps the options it was given; its
    public endpoint is [options.publicEndpoint] when that is a non-empty
    string and [protocol//host] of the parsed endpoint otherwise; and the
    constructor has logged, in this order, the bucket, the internal
    endpoint and the public endpoint, after the warning of
    [parseEndpoint] if there was one. *)
Theorem constructed_service_fields
    (options : MinioFileProviderOptions) (w : W)
    (this : MinioFileProviderService W) :
  outcome (constructor rt options w) = Returned this →
  ∃ parsed,
    outcome (parseEndpoint rt (endPoint options) w) = Returned parsed
    ∧ config_ this = options
    ∧ publicEndpoint this
      = (if truthy (opt_publicEndpoint options)
         then default EmptyString (opt_publicEndpoint options)
         else protocol parsed +:+ "//" +:+ host parsed)
    ∧ trace (constructor rt options w)
      = trace (parseEndpoint rt (endPoint options) w)
        ++ [Log Info ("MinIO service initialized with bucket: " +:+ bucket this);
            Log Info ("MinIO internal endpoint: " +:+ endPoint options);
            Log Info ("MinIO public endpoint: " +:+ publicEndpoint this)].
Proof.
  destruct (constructor_run options w) as (parsed & t & Hp & ->).
  cbn [outcome trace]. rewrite Hp. cbn [outcome trace].
  destruct (Client_new rt _) as [e|c]; [done|]. intros [= <-].
  exists parsed. cbn [config_ publicEndpoint bucket].
  repeat split; try done. apply truthy_or_else.
Qed.

(** X9.  The port and the SSL flag given to [new Client] agree whenever
    the endpoint names no port: after a successful parse of a URL without
    a port the client gets port 443 with SSL and port 80 without; after
    the fallback the client always uses SSL, with port 443 when the
    endpoint has no colon. *)
Theorem client_port_follows_scheme
    (options : MinioFileProviderOptions) (w : W) (parsed : ParsedEndpoint) :
  outcome (parseEndpoint rt (endPoint options) w) = Returned parsed →
  let co := clientOptions parsed options in
  (∀ url, URL_new rt (urlString (endPoint options)) = inr url →
          url_port url = EmptyString →
          c_port co = if c_useSSL co then JsInt 443 else JsInt 80)
  ∧ (∀ error, URL_new rt (urlString (endPoint options)) = inl error →
              c_useSSL co = true
              ∧ (no_colon (endPoint options) = true → c_port co = JsInt 443)).
Proof.
  intros Hp. cbn zeta. split.
  - intros url Hurl Hport.
    rewrite (parseEndpoint_parsed _ w url Hurl) in Hp. injection Hp as <-.
    cbn [clientOptions c_port c_useSSL port protocol]. by rewrite Hport.
  - intros error Hurl.
    destruct (parseEndpoint_fallback _ w error parsed Hurl Hp) as (Hproto & Hno & _).
    cbn [clientOptions c_port c_useSSL]. rewrite Hproto. split; [done|].
    intros Hc. by destruct (Hno Hc) as (_ & -> & _).
Qed.
End Construction.


(** ** Preparing the bucket *)

Section Methods.
Context {W : Type}.
Variable rt : Runtime W.
Variable this : MinioFileProviderService W.

(** X10.  A failed client call inside [initializeBucket] is re-thrown as
    it is, after an error-level log line, with one exception: when the
    bucket already exists and only setting its policy fails,
    [initializeBucket] logs a warning and returns normally. *)
Theorem initializeBucket_tolerates_policy_failure_on_existing_bucket
    (w : W) (c : ClientCall) (e : JsError) :
  let b := bucket this in
  let r := initializeBucket rt this w in
  Call c (Failed e) ∈ trace r →
  match (bucketExists (client this) b w).1 with
  | Returned true =>
      c = SetBucketPolicy b (JSON_stringify rt (publicReadPolicy b))
      ∧ outcome r = Returned tt
      ∧ last (trace r)
        = Some (Log Warn ("Failed to update policy for existing bucket: "
                          +:+ message e))
  | _ =>
      outcome r = Threw e
      ∧ last (trace r)
        = Some (Log Error ("Error initializing bucket: " +:+ message e))
  end.
Proof.
  cbn zeta. unfold initializeBucket. run.
  destruct (bucketExists _ _ w) as [[[|]|e1|] w1]; run.
  - destruct (setBucketPolicy _ _ _ w1) as [[[]|e2|] w2]; run;
      intros H; pick H. by injection H as <- <-.
  - destruct (makeBucket _ _ w1) as [[[]|e2|] w2]; run.
    + destruct (setBucketPolicy _ _ _ w2) as [[[]|e3|] w3]; run;
        intros H; pick H. by injection H as _ <-.
    + intros H; pick H. by injection H as _ <-.
    + intros H; pick H.
  - intros H; pick H. by injection H as _ <-.
  - intros H; pick H.
Qed.

(** X11.  Whatever [initializeBucket] throws, the promise the
    constructor started swallows it: the failure is logged twice (by
    [initializeBucket] and by the constructor's handler) and the promise
    resolves. *)
Theorem initialization_failure_is_logged_twice (w : W) (e : JsError) :
  outcome (initializeBucket rt this w) = Threw e →
  let r := constructor_initialization rt this w in
  outcome r = Returned tt
  ∧ final r = final (initializeBucket rt this w)
  ∧ ∃ t, trace r
         = t ++ [Log Error ("Error initializing bucket: " +:+ message e);
                 Log Error ("Failed to initialize MinIO bucket: " +:+ message e)].
Proof.
  cbn zeta. unfold constructor_initialization, initializeBucket. run.
  destruct (bucketExists _ _ w) as [[[|]|e1|] w1]; run.
  - by destruct (setBucketPolicy _ _ _ w1) as [[[]|e2|] w2].
  - destruct (makeBucket _ _ w1) as [[[]|e2|] w2]; run; try done.
    + destruct (setBucketPolicy _ _ _ w2) as [[[]|e3|] w3]; run; try done.
      intros [= ->]. repeat split. by eexists [_; _; _; _].
    + intros [= ->]. repeat split. by eexists [_; _].
  - intros [= ->]. repeat split. by eexists [_].
  - done.
Qed.

(** ** Uploading *)

Lemma Buffer_from_binary_length (data : string) :
  length (Buffer_from_binary data) = String.length data.
Proof.
  unfold Buffer_from_binary, list_byte_of_string.
  rewrite length_map. induction data as [|c data IH]; [done|]. cbn. by rewrite IH.
Qed.

(** X12.  An upload that has a filename but no content is not refused as
    invalid input: [Buffer.from] throws inside the [try], so the method
    logs the failure and throws [UNEXPECTED_STATE].  No client call is
    made, but a ULID has already been drawn. *)
Theorem upload_without_content (file : ProviderUploadFileDTO) (w : W) :
  truthy (filename file) = true →
  content file = None →
  ∃ m, upload rt this (Some file) w
       = mkRun (Threw (MedusaError UNEXPECTED_STATE ("Failed to upload file: " +:+ m)))
           (ulid rt w).2
           [Log Error ("Failed to upload file: " +:+ m)].
Proof.
  intros Hf Hc. unfold upload, Buffer_from. rewrite Hf, Hc. run. by eexists.
Qed.

(** X13.  An upload with a filename and content makes exactly one client
    call: [putObject] on the service's bucket, under the key
    [name-ulid.ext], with the bytes of the content, their number as the
    size, and metadata carrying the MIME type, the original filename and
    the [public-read] ACL.  The key it returns is the key it stored
    under. *)
Theorem upload_stores_under_the_returned_key
    (file : ProviderUploadFileDTO) (f data : string) (w : W) :
  let parsed := path_parse rt f in
  let k := name parsed +:+ "-" +:+ (ulid rt w).1 +:+ ext parsed in
  let r := upload rt this (Some file) w in
  filename file = Some f →
  truthy (Some f) = true →
  content file = Some data →
  client_calls (trace r)
  = [PutObject (bucket this) k (Buffer_from_binary data) (String.length data)
       [("Content-Type", mimeType file);
        ("x-amz-meta-original-filename", Some f);
        ("x-amz-acl", Some "public-read")]]
  ∧ ∀ result, outcome r = Returned result → key result = k.
Proof.
  intros parsed k r Hf Ht Hc. subst parsed k r.
  unfold upload, Buffer_from. rewrite Hf, Ht, Hc. cbn [negb from_option]. unfold id.
  run. rewrite Buffer_from_binary_length.
  settle; split; try done. by intros result [= <-].
Qed.

(** ** Deleting *)

Lemma delete_files_returned files : ∀ w,
  outcome (delete_files this files w) = Returned tt →
  client_calls (trace (delete_files this files w))
  = map (RemoveObject (bucket this)) (all_keys files)
  ∧ length (trace (delete_files this files w)) = (2 * length files)%nat.
Proof.
  induction files as [|file files IH]; intros w; [done|].
  destruct (truthy (fileKey_of file)) eqn:Hk.
  - rewrite (delete_files_step this _ _ _ Hk). cbn zeta.
    destruct (removeObject _ _ _ w) as [[[]|e|] w']; cbn [fst snd outcome trace];
      [| |done].
    all: intros Hret; destruct (IH w' Hret) as [Hc Hl];
      rewrite client_calls_call, client_calls_log, Hc;
      split; [done|]; cbn [length]; lia.
  - by rewrite (delete_files_stop this _ _ _ Hk).
Qed.

(** X14.  When [delete] returns, it has called [removeObject] once for
    every input, in the order given, and logged one line after each call;
    a removal that failed did not keep the later ones from being tried. *)
Theorem delete_returns_after_trying_every_removal
    (fileData : DeleteInput) (w : W) :
  let r := invoke rt this (Delete fileData) w in
  outcome r = Returned Done →
  missing_required (Delete fileData) = false
  ∧ client_calls (trace r)
    = map (RemoveObject (bucket this)) (all_keys (files_of fileData))
  ∧ length (trace r) = (2 * length (files_of fileData))%nat.
Proof.
  intros r. subst r. rewrite missing_required_delete.
  unfold invoke. rewrite fmap_outcome, fmap_trace, delete_unfold. intros Hret.
  destruct (delete_files_run this (files_of fileData) w) as (_ & _ & Hr & _).
  destruct (outcome (delete_files this (files_of fileData) w)) as [[]|e|] eqn:Ho;
    try done.
  split; [by apply Hr|]. by apply delete_files_returned.
Qed.

(** X15.  Deleting the concatenation of two arrays is deleting the
    first and then, if that returned, the second from the world the first
    left; if the first throws or hangs, so does the whole, at the same
    point. *)
Theorem delete_of_concatenation
    (first second : list (option ProviderDeleteFileDTO)) (w : W) :
  let r1 := delete this (FileArray first) w in
  let r2 := delete this (FileArray second) (final r1) in
  delete this (FileArray (first ++ second)) w
  = match outcome r1 with
    | Returned _ => mkRun (outcome r2) (final r2) (trace r1 ++ trace r2)
    | _ => r1
    end.
Proof.
  cbn zeta. unfold delete. revert w.
  induction first as [|file first IH]; intros w.
  - cbn. by destruct (delete_files this second w).
  - destruct (truthy (fileKey_of file)) eqn:Hk.
    + rewrite <- app_comm_cons, !(delete_files_step this _ _ _ Hk). cbn zeta.
      destruct (removeObject _ _ _ w) as [[[]|e|] w']; cbn [fst snd]; [| |done].
      all: rewrite IH; destruct (delete_files this first w') as [[[]|e'|] w'' t];
        by cbn [outcome final trace].
    + by rewrite <- app_comm_cons, !(delete_files_stop this _ _ _ Hk).
Qed.

(** ** Presigned URLs and streams *)

(** X16.  Both presign methods hand back the URL the client produced,
    unchanged.  [getPresignedUploadUrl] returns the filename itself as
    the key (no ULID is added, unlike [upload]) and logs nothing;
    [getPresignedDownloadUrl] logs one line. *)
Theorem presigned_urls_are_the_clients
    (download : option ProviderGetFileDTO)
    (upload : option ProviderGetPresignedUploadUrlDTO)
    (w w1 w2 : W) (u1 u2 : string) :
  let k := default EmptyString (fileKey_of download) in
  let f := default EmptyString (filename_of upload) in
  truthy (fileKey_of download) = true →
  truthy (filename_of upload) = true →
  presignedGetObject (client this) (bucket this) k (24 * 60 * 60) w = (Returned u1, w1) →
  presignedPutObject (client this) (bucket this) f (15 * 60) w = (Returned u2, w2) →
  getPresignedDownloadUrl this download w
  = mkRun (Returned u1) w1
      [Call (PresignedGetObject (bucket this) k 86400) Ok;
       Log Info ("Generated presigned URL for file " +:+ k)]
  ∧ getPresignedUploadUrl this upload w
    = mkRun (Returned {| url := u2; key := f |}) w2
        [Call (PresignedPutObject (bucket this) f 900) Ok].
Proof.
  intros k f Hd Hu Hget Hput. subst k f.
  unfold getPresignedDownloadUrl, getPresignedUploadUrl. rewrite Hd, Hu. run.
  by rewrite Hget, Hput.
Qed.

(** X17.  [getDownloadStream] returns the client's stream as soon as
    [getObject] returns, whatever the stream will emit; what the stream
    does only matters to [getAsBuffer], which on the same stream returns,
    throws a [MedusaError] or hangs according to the stream's first
    [end] or [error]. *)
Theorem getDownloadStream_does_not_read_the_stream
    (fileData : option ProviderGetFileDTO) (w w' : W) (stream : Readable) :
  let k := default EmptyString (fileKey_of fileData) in
  truthy (fileKey_of fileData) = true →
  getObject (client this) (bucket this) k w = (Returned stream, w') →
  getDownloadStream this fileData w
  = mkRun (Returned stream) w'
      [Call (GetObject (bucket this) k) Ok;
       Log Info ("Retrieved download stream for file " +:+ k)]
  ∧ outcome (getAsBuffer this fileData w)
    = match collect stream [] with
      | Returned buffer => Returned buffer
      | Threw e =>
          Threw (MedusaError UNEXPECTED_STATE ("Failed to get buffer: " +:+ message e))
      | Pending => Pending
      end.
Proof.
  intros k Hk Hget. subst k. unfold getDownloadStream, getAsBuffer.
  rewrite Hk. run. rewrite Hget. split; [done|]. by destruct (collect stream []).
Qed.

(** X18.  On a stream that delivers chunks but never emits [end] or
    [error], [getAsBuffer] never settles: it returns no partial buffer,
    throws nothing and logs nothing after the [getObject] call. *)
Theorem getAsBuffer_waits_for_the_end
    (fileData : option ProviderGetFileDTO) (w w' : W) (chunks : list Buffer) :
  let k := default EmptyString (fileKey_of fileData) in
  truthy (fileKey_of fileData) = true →
  getObject (client this) (bucket this) k w = (Returned (map SData chunks), w') →
  getAsBuffer this fileData w
  = mkRun Pending w' [Call (GetObject (bucket this) k) Ok].
Proof.
  intros k Hk Hget. subst k. unfold getAsBuffer. rewrite Hk. run. rewrite Hget.
  assert (collect (map SData chunks) [] = Pending) as ->; [|done].
  rewrite <- (app_nil_r (map SData chunks)). by rewrite collect_data.
Qed.

(** ** All six methods *)

Lemma upload_throws file w e :
  truthy (file ≫= filename) = true →
  outcome (upload rt this file w) = Threw e →
  ∃ m, e = MedusaError UNEXPECTED_STATE m.
Proof.
  destruct file as [file|]; [|done]. cbn [mbind option_bind]. intros Hf.
  unfold upload, Buffer_from. rewrite Hf.
  destruct (content file) as [data|]; run.
  - settle; try done. intros [= <-]. by eexists.
  - intros [= <-]. by eexists.
Qed.

Lemma getPresignedDownloadUrl_throws fileData w e :
  truthy (fileKey_of fileData) = true →
  outcome (getPresignedDownloadUrl this fileData w) = Threw e →
  ∃ m, e = MedusaError UNEXPECTED_STATE m.
Proof.
  intros Hk. unfold getPresignedDownloadUrl. rewrite Hk. run.
  settle; try done. intros [= <-]. by eexists.
Qed.

Lemma getPresignedUploadUrl_throws fileData w e :
  truthy (filename_of fileData) = true →
  outcome (getPresignedUploadUrl this fileData w) = Threw e →
  ∃ m, e = MedusaError UNEXPECTED_STATE m.
Proof.
  intros Hk. unfold getPresignedUploadUrl. rewrite Hk. run.
  settle; try done. intros [= <-]. by eexists.
Qed.

Lemma getAsBuffer_throws fileData w e :
  truthy (fileKey_of fileData) = true →
  outcome (getAsBuffer this fileData w) = Threw e →
  ∃ m, e = MedusaError UNEXPECTED_STATE m.
Proof.
  intros Hk. unfold getAsBuffer. rewrite Hk. run. settle; try done.
  - destruct (collect _ _); run; try done. intros [= <-]. by eexists.
  - intros [= <-]. by eexists.
Qed.

Lemma getDownloadStream_throws fileData w e :
  truthy (fileKey_of fileData) = true →
  outcome (getDownloadStream this fileData w) = Threw e →
  ∃ m, e = MedusaError UNEXPECTED_STATE m.
Proof.
  intros Hk. unfold getDownloadStream. rewrite Hk. run.
  settle; try done. intros [= <-]. by eexists.
Qed.

(** X19.  Whatever goes wrong inside a file method, the caller only
    ever sees a [MedusaError]: of type [INVALID_DATA] when the required
    field of the request is missing, of type [UNEXPECTED_STATE] in every
    other case (a client failure, a stream error, a [TypeError] of
    [Buffer.from]). *)
Theorem every_error_is_a_typed_MedusaError (req : Request) (w : W) (e : JsError) :
  outcome (invoke rt this req w) = Threw e →
  ∃ m, e = MedusaError (error_type req) m.
Proof.
  assert (∀ {A} (r : Run W Event A), refused r w → outcome r = Threw e →
            ∃ m, e = MedusaError INVALID_DATA m) as Hrefused.
  { intros A r [m ->] [= <-]. by eexists. }
  unfold error_type.
  destruct req as [file|fileData|fileData|fileData|fileData|fileData];
    unfold invoke; rewrite fmap_outcome.
  2: {
    rewrite missing_required_delete, delete_unfold.
    destruct (delete_files_run this (files_of fileData) w) as (_ & Ht & _).
    destruct (outcome (delete_files this (files_of fileData) w)); try done.
    intros [= <-]. destruct (Ht _ eq_refl) as (-> & -> & _). by eexists. }
  all: cbn [missing_required];
    match goal with |- context [negb (truthy ?x)] => destruct (truthy x) eqn:Hk end;
    cbn [negb];
    match goal with
    | |- match outcome ?r with _ => _ end = _ → _ =>
        destruct (outcome r) eqn:Ho; try done; intros [= <-]
    end.
  - by eapply upload_throws.
  - by eapply Hrefused; [apply upload_refuses|].
  - by eapply getPresignedDownloadUrl_throws.
  - by eapply Hrefused; [apply getPresignedDownloadUrl_refuses|].
  - by eapply getPresignedUploadUrl_throws.
  - by eapply Hrefused; [apply getPresignedUploadUrl_refuses|].
  - by eapply getAsBuffer_throws.
  - by eapply Hrefused; [apply getAsBuffer_refuses|].
  - by eapply getDownloadStream_throws.
  - by eapply Hrefused; [apply getDownloadStream_refuses|].
Qed.

Lemma keys_before_missing_length (files : list (option ProviderDeleteFileDTO)) :
  (length (keys_before_missing files) ≤ length files)%nat.
Proof.
  induction files as [|file files IH]; cbn [keys_before_missing length]; [done|].
  destruct (truthy (fileKey_of file)); cbn [length]; lia.
Qed.

(** X20.  No file method retries or fans out: a request makes at most
    one client call, and [delete] at most one per element of its array. *)
Theorem requests_stay_within_their_call_budget (req : Request) (w : W) :
  (length (client_calls (trace (invoke rt this req w))) ≤ call_budget req)%nat.
Proof.
  destruct req as [file|fileData|fileData|fileData|fileData|fileData];
    unfold invoke; rewrite fmap_trace; cbn [call_budget].
  - by destruct (upload_calls rt this file w) as [->|(k & d & n & md & ->)]; cbn; lia.
  - rewrite delete_unfold.
    destruct (delete_files_run this (files_of fileData) w) as (Hp & _).
    apply prefix_length in Hp. rewrite length_map in Hp.
    pose proof (keys_before_missing_length (files_of fileData)). lia.
  - destruct (truthy (fileKey_of fileData)) eqn:Hk.
    + by rewrite getPresignedDownloadUrl_calls.
    + destruct (getPresignedDownloadUrl_refuses this fileData w Hk) as [m ->]. cbn; lia.
  - destruct (truthy (filename_of fileData)) eqn:Hk.
    + by rewrite getPresignedUploadUrl_calls.
    + destruct (getPresignedUploadUrl_refuses this fileData w Hk) as [m ->]. cbn; lia.
  - destruct (truthy (fileKey_of fileData)) eqn:Hk.
    + by rewrite getAsBuffer_calls.
    + destruct (getAsBuffer_refuses this fileData w Hk) as [m ->]. cbn; lia.
  - destruct (truthy (fileKey_of fileData)) eqn:Hk.
    + by rewrite getDownloadStream_calls.
    + destruct (getDownloadStream_refuses this fileData w Hk) as [m ->]. cbn; lia.
Qed.
End Methods.

(** ** Executions on the in-memory store *)

Lemma validateOptions_names_first_missing_witness :
  validateOptions keyless_options
  = Threw (MedusaError INVALID_DATA "accessKey is required in the provider's options")
  ∧ ∃ before field after,
      requiredFields = before ++ field :: after
      ∧ Forall (λ f, truthy (keyless_options !! f) = true) before
      ∧ truthy (keyless_options !! field) = false.
Proof.
  assert (validateOptions keyless_options
          = Threw (MedusaError INVALID_DATA
                     "accessKey is required in the provider's options"))
    as Hthrew by (vm_compute; reflexivity).
  split; [exact Hthrew|].
  destruct (validateOptions_names_first_missing keyless_options _ Hthrew)
    as (before & field & after & Hsplit & Hb & Hf & _).
  exists before, field, after. repeat split; assumption.
Defined.

Lemma validateOptions_ignores_other_options_witness :
  validateOptions (<["bucket" := "uploads"]> keyless_options)
  = validateOptions keyless_options.
Proof.
  refine (proj1 (validateOptions_ignores_other_options keyless_options
                   "bucket" "uploads" _)).
  intros H. repeat (apply elem_of_cons in H as [H|H]; [discriminate H|]).
  by apply elem_of_nil in H.
Defined.

Lemma parseEndpoint_defaults_to_https_witness :
  parseEndpoint mem_runtime "minio.local:9000" empty_store
  = parseEndpoint mem_runtime "https://minio.local:9000" empty_store.
Proof.
  exact (parseEndpoint_defaults_to_https mem_runtime "minio.local:9000" empty_store
           {| url_protocol := "https:"; url_hostname := "minio.local";
              url_port := "9000"; url_host := "minio.local:9000" |}
           eq_refl eq_refl eq_refl).
Defined.

Lemma parseEndpoint_fallback_witness :
  (∃ parsed,
     outcome (parseEndpoint strict_runtime "minio.local:1000000000000000000000"
                empty_store) = Returned parsed
     ∧ hostname parsed = "minio.local"
     ∧ port parsed = JsInt (10 ^ 21)
     ∧ host parsed = "minio.local:1e+21")
  ∧ ∃ parsed,
    outcome (parseEndpoint strict_runtime "minio:s3" empty_store) = Returned parsed
    ∧ protocol parsed = "https:"
    ∧ hostname parsed = "minio"
    ∧ port parsed = NaN
    ∧ host parsed = "minio:NaN".
Proof.
  split.
  { set (parsed := {| protocol := "https:"; hostname := "minio.local";
                      port := JsInt (10 ^ 21); host := "minio.local:1e+21" |}).
    assert (outcome (parseEndpoint strict_runtime
                       "minio.local:1000000000000000000000" empty_store)
            = Returned parsed) as Hp by (vm_compute; reflexivity).
    exists parsed. split; [exact Hp|].
    destruct (parseEndpoint_fallback strict_runtime
                "minio.local:1000000000000000000000" empty_store
                (OtherError "TypeError" "Invalid URL") parsed eq_refl Hp)
      as (_ & _ & Hsplit).
    destruct (Hsplit "minio.local" "1000000000000000000000" eq_refl eq_refl eq_refl)
      as (Hh & Hport & Hhost).
    split; [exact Hh|]. split; reflexivity. }
  set (parsed := {| protocol := "https:"; hostname := "minio"; port := NaN;
                    host := "minio:NaN" |}).
  assert (outcome (parseEndpoint strict_runtime "minio:s3" empty_store)
          = Returned parsed) as Hp by (vm_compute; reflexivity).
  exists parsed. split; [exact Hp|].
  destruct (parseEndpoint_fallback strict_runtime "minio:s3" empty_store
              (OtherError "TypeError" "Invalid URL") parsed eq_refl Hp)
    as (Hproto & _ & Hsplit).
  destruct (Hsplit "minio" "s3" eq_refl eq_refl eq_refl) as (Hh & Hport & Hhost).
  repeat split; assumption.
Defined.

Lemma constructed_service_fields_witness :
  outcome (constructor mem_runtime mem_options empty_store) = Returned mem_service
  ∧ ∃ parsed,
      outcome (parseEndpoint mem_runtime "minio.local:9000" empty_store)
      = Returned parsed
      ∧ publicEndpoint mem_service = protocol parsed +:+ "//" +:+ host parsed.
Proof.
  assert (outcome (constructor mem_runtime mem_options empty_store)
          = Returned mem_service) as Hnew by (vm_compute; reflexivity).
  split; [exact Hnew|].
  destruct (constructed_service_fields mem_runtime mem_options empty_store
              mem_service Hnew) as (parsed & Hp & _ & Hpub & _).
  exists parsed. split; assumption.
Defined.

Lemma client_port_follows_scheme_witness :
  ∃ parsed,
    outcome (parseEndpoint mem_runtime "minio.local" empty_store) = Returned parsed
    ∧ c_useSSL (clientOptions parsed portless_options) = true
    ∧ c_port (clientOptions parsed portless_options) = JsInt 443.
Proof.
  set (parsed := {| protocol := "https:"; hostname := "minio.local";
                    port := JsInt 443; host := "minio.local" |}).
  assert (outcome (parseEndpoint mem_runtime (endPoint portless_options) empty_store)
          = Returned parsed) as Hp by (vm_compute; reflexivity).
  exists parsed. split; [exact Hp|]. split; [reflexivity|].
  destruct (client_port_follows_scheme mem_runtime portless_options empty_store
              parsed Hp) as [Hok _].
  exact (Hok {| url_protocol := "https:"; url_hostname := "minio.local";
                url_port := ""; url_host := "minio.local" |} eq_refl eq_refl).
Defined.

Lemma initializeBucket_tolerates_policy_failure_on_existing_bucket_witness :
  let r := initializeBucket mem_runtime readonly_service one_object_store in
  outcome r = Returned tt
  ∧ last (trace r)
    = Some (Log Warn "Failed to update policy for existing bucket: Access Denied").
Proof.
  set (policy := mem_stringify (publicReadPolicy "medusa-media")).
  assert (Call (SetBucketPolicy "medusa-media" policy) (Failed access_denied)
          ∈ trace (initializeBucket mem_runtime readonly_service one_object_store))
    as Hin by (vm_compute; right; right; left).
  destruct (initializeBucket_tolerates_policy_failure_on_existing_bucket
              mem_runtime readonly_service one_object_store _ _ Hin)
    as (_ & Hout & Hlast).
  split; assumption.
Defined.

Lemma initialization_failure_is_logged_twice_witness :
  let r := constructor_initialization mem_runtime readonly_service empty_store in
  outcome r = Returned tt
  ∧ ∃ t, trace r
         = t ++ [Log Error "Error initializing bucket: Access Denied";
                 Log Error "Failed to initialize MinIO bucket: Access Denied"].
Proof.
  assert (outcome (initializeBucket mem_runtime readonly_service empty_store)
          = Threw access_denied) as Hthrew by (vm_compute; reflexivity).
  destruct (initialization_failure_is_logged_twice mem_runtime readonly_service
              empty_store access_denied Hthrew) as (Hout & _ & Htrace).
  split; assumption.
Defined.

Lemma upload_without_content_witness :
  ∃ m, outcome (upload mem_runtime mem_service (Some empty_handed) one_object_store)
       = Threw (MedusaError UNEXPECTED_STATE ("Failed to upload file: " +:+ m))
       ∧ client_calls
           (trace (upload mem_runtime mem_service (Some empty_handed)
                     one_object_store)) = [].
Proof.
  destruct (upload_without_content mem_runtime mem_service empty_handed
              one_object_store eq_refl eq_refl) as [m Hrun].
  exists m. rewrite Hrun. split; reflexivity.
Defined.

Lemma upload_stores_under_the_returned_key_witness :
  let r := upload mem_runtime mem_service (Some cat_picture) one_object_store in
  client_calls (trace r)
  = [PutObject "medusa-media" "cat-01JBCDEFGHJKMNPQRSTVWX0007.png"
       (Buffer_from_binary "abc") 3
       [("Content-Type", Some "image/png");
        ("x-amz-meta-original-filename", Some "pets/cat.png");
        ("x-amz-acl", Some "public-read")]].
Proof.
  exact (proj1 (upload_stores_under_the_returned_key mem_runtime mem_service
                  cat_picture "pets/cat.png" "abc" one_object_store
                  eq_refl eq_refl eq_refl)).
Defined.

Lemma delete_returns_after_trying_every_removal_witness :
  let r := invoke mem_runtime mem_service (Delete (FileArray [ghost; logo]))
             one_object_store in
  outcome r = Returned Done
  ∧ client_calls (trace r)
    = [RemoveObject "medusa-media" "ghost.png"; RemoveObject "medusa-media" "logo.png"]
  ∧ length (trace r) = 4%nat.
Proof.
  assert (outcome (invoke mem_runtime mem_service (Delete (FileArray [ghost; logo]))
                     one_object_store) = Returned Done)
    as Hret by (vm_compute; reflexivity).
  split; [exact Hret|].
  exact (proj2 (delete_returns_after_trying_every_removal mem_runtime mem_service
                  (FileArray [ghost; logo]) one_object_store Hret)).
Defined.

Lemma presigned_urls_are_the_clients_witness :
  outcome (getPresignedDownloadUrl mem_service logo one_object_store)
  = Returned "http://minio.local:9000/medusa-media/logo.png?X-Amz-Expires=86400"
  ∧ outcome (getPresignedUploadUrl mem_service
               (Some {| upload_filename := Some "new.png" |}) one_object_store)
    = Returned {| url := "http://minio.local:9000/medusa-media/new.png?X-Amz-Expires=900";
                  key := "new.png" |}.
Proof.
  destruct (presigned_urls_are_the_clients mem_service logo
              (Some {| upload_filename := Some "new.png" |})
              one_object_store one_object_store one_object_store
              "http://minio.local:9000/medusa-media/logo.png?X-Amz-Expires=86400"
              "http://minio.local:9000/medusa-media/new.png?X-Amz-Expires=900"
              eq_refl eq_refl eq_refl eq_refl) as [-> ->].
  split; reflexivity.
Defined.

Lemma getDownloadStream_does_not_read_the_stream_witness :
  outcome (getDownloadStream stalling_service logo one_object_store)
  = Returned [SData (Buffer_from_binary "PNG")]
  ∧ outcome (getAsBuffer stalling_service logo one_object_store) = Pending.
Proof.
  destruct (getDownloadStream_does_not_read_the_stream stalling_service logo
              one_object_store one_object_store [SData (Buffer_from_binary "PNG")]
              eq_refl eq_refl) as [-> ->].
  split; reflexivity.
Defined.

Lemma getAsBuffer_waits_for_the_end_witness :
  getAsBuffer stalling_service logo one_object_store
  = mkRun Pending one_object_store [Call (GetObject "medusa-media" "logo.png") Ok].
Proof.
  exact (getAsBuffer_waits_for_the_end stalling_service logo one_object_store
           one_object_store [Buffer_from_binary "PNG"] eq_refl eq_refl).
Defined.

Lemma every_error_is_a_typed_MedusaError_witness :
  ∃ m, outcome (invoke mem_runtime mem_service (GetAsBuffer ghost) one_object_store)
       = Threw (MedusaError UNEXPECTED_STATE m).
Proof.
  set (e := MedusaError UNEXPECTED_STATE
              "Failed to get buffer: The specified key does not exist.").
  assert (outcome (invoke mem_runtime mem_service (GetAsBuffer ghost)
                     one_object_store) = Threw e)
    as Hthrew by (vm_compute; reflexivity).
  destruct (every_error_is_a_typed_MedusaError mem_runtime mem_service
              (GetAsBuffer ghost) one_object_store e Hthrew) as [m Hm].
  exists m. rewrite Hthrew, Hm. reflexivity.
Defined.

End MinioExtras.

(** * Further properties of the storefront component *)

Module StorefrontExtras.
Import Storefront.

Section Component.
Context {W : Type}.
Variable data : Data W.

Lemma log_collections_trace cols : ∀ i (w : W),
  log_collections i cols w
  = mkRun (Returned tt) w
      (imap (λ j col,
               ConsoleLog
                 [Text ("[FeaturedProducts] Collection " +:+ pretty (i + j)%nat
                        +:+ ": " +:+ title col +:+ ", products: "
                        +:+ pretty (from_option length 0%nat (products col)))])
            cols).
Proof.
  induction cols as [|col cols IH]; intros i w; cbn [log_collections]; [done|].
  unfold mbind, M_bind, bind, emit, continue. rewrite IH. cbn [imap app].
  rewrite Nat.add_0_r. do 2 f_equal. apply imap_ext. intros j c _. cbn.
  by rewrite Nat.add_succ_r.
Qed.

(** X21.  [FeaturedProducts] has no error handling of its own: an error
    of [listCollections] or of [getRegion] is thrown on as it is, before
    anything is logged; and when [listCollections] fails, [getRegion] is
    not called at all. *)
Theorem FeaturedProducts_passes_fetch_errors_on
    (countryCode : string) (w : W) (e : JsError) :
  let query := [("limit", "3"); ("fields", "*products")] in
  let listed := listCollections data query w in
  let r := FeaturedProducts data countryCode w in
  listed.1 = Threw e
  ∨ (∃ response, listed.1 = Returned response)
    ∧ (getRegion data countryCode listed.2).1 = Threw e →
  outcome r = Threw e
  ∧ (∀ args, ConsoleLog args ∉ trace r)
  ∧ (listed.1 = Threw e → trace r = [ListCollections query]).
Proof.
  cbn zeta. unfold FeaturedProducts.
  unfold mbind, M_bind, mret, M_ret, bind, perform, emit, continue, ret.
  destruct (listCollections data _ w) as [[response|e1|] w1]; cbn [fst snd].
  - intros [[=] | [_ Hregion]].
    destruct (getRegion data countryCode w1) as [[region|e2|] w2];
      cbn [fst snd] in Hregion; try done. injection Hregion as ->.
    cbn [outcome trace]. repeat split; try done.
    intros args Hin. by repeat (apply elem_of_cons in Hin as [Hin|Hin]; [done|]);
      apply elem_of_nil in Hin.
  - intros [[= ->] | [[response [=]] _]].
    cbn [outcome trace]. repeat split; try done.
    intros args Hin. by repeat (apply elem_of_cons in Hin as [Hin|Hin]; [done|]);
      apply elem_of_nil in Hin.
  - by intros [[=] | [[response [=]] _]].
Qed.

(** X22.  Once both fetches have returned, [FeaturedProducts] has asked
    for at most three collections with their products and then for the
    region of the country code, and has logged, whether or not it renders
    anything: the number of collections (0 when they are absent), the
    region's id (['none'] when there is no region or its id is empty),
    and one numbered line per collection.  It leaves the world as the
    second fetch left it. *)
Theorem FeaturedProducts_logs_before_it_decides
    (countryCode : string) (w w1 w2 : W)
    (fetched : option (list StoreCollection)) (region : option StoreRegion) :
  listCollections data [("limit", "3"); ("fields", "*products")] w
  = (Returned {| collections := fetched |}, w1) →
  getRegion data countryCode w1 = (Returned region, w2) →
  let r := FeaturedProducts data countryCode w in
  final r = w2
  ∧ trace r
    = [ListCollections [("limit", "3"); ("fields", "*products")];
       GetRegion countryCode;
       ConsoleLog [Text "[FeaturedProducts] Collections count:";
                   Number (from_option length 0%nat fetched)];
       ConsoleLog [Text "[FeaturedProducts] Region:";
                   Text (or_else (region_id <$> region) "none")]]
      ++ imap (λ i col,
                 ConsoleLog
                   [Text ("[FeaturedProducts] Collection " +:+ pretty i
                          +:+ ": " +:+ title col +:+ ", products: "
                          +:+ pretty (from_option length 0%nat (products col)))])
              (default [] fetched).
Proof.
  intros Hlist Hregion r. subst r. unfold FeaturedProducts.
  unfold mbind, M_bind, mret, M_ret, bind, perform, emit, continue, ret.
  rewrite Hlist, Hregion. cbn [collections].
  destruct fetched as [[|col cols]|]; lazy beta iota;
    try rewrite log_collections_trace;
    destruct region as [reg|]; cbn [final trace app from_option];
    by rewrite ?app_nil_r.
Qed.
End Component.

Lemma FeaturedProducts_passes_fetch_errors_on_witness :
  FeaturedProducts offline_data "dk" tt
  = mkRun (Threw (OtherError "TypeError" "fetch failed")) tt
      [ListCollections [("limit", "3"); ("fields", "*products")]].
Proof.
  destruct (FeaturedProducts_passes_fetch_errors_on offline_data "dk" tt
              (OtherError "TypeError" "fetch failed") (or_introl eq_refl))
    as (Hout & _ & Htrace).
  specialize (Htrace eq_refl).
  destruct (FeaturedProducts offline_data "dk" tt) as [o [] t].
  cbn [outcome trace] in Hout, Htrace. by rewrite Hout, Htrace.
Defined.

Lemma FeaturedProducts_logs_before_it_decides_witness :
  trace (FeaturedProducts fixed_data "us" tt)
  = [ListCollections [("limit", "3"); ("fields", "*products")];
     GetRegion "us";
     ConsoleLog [Text "[FeaturedProducts] Collections count:"; Number 2];
     ConsoleLog [Text "[FeaturedProducts] Region:"; Text "none"];
     ConsoleLog [Text "[FeaturedProducts] Collection 0: Summer, products: 2"];
     ConsoleLog [Text "[FeaturedProducts] Collection 1: Winter, products: 0"]].
Proof.
  exact (proj2 (FeaturedProducts_logs_before_it_decides fixed_data "us" tt tt tt
                  (Some [summer; winter]) None eq_refl eq_refl)).
Defined.

End StorefrontExtras.
